(** * spotifytoken.js: semaphore, bounded token fetch and cached-token handler

    A shallow embedding of [src/spotifytoken.js].  The file has three parts,
    one per construct of the source:

    - [Semaphore] (lines 12-38): the lock with its queue of waiters;
    - [getAccessToken] (lines 50-107): one browser-driven fetch attempt, as a
      machine that reacts to the events the browser and the timer deliver;
    - [handler0] (lines 124-167): the requests that share the cached token,
      as tasks that interleave at their [await]s.

    JavaScript runs one callback at a time, so each transition below is one
    synchronous run of code between two suspension points. *)

From stdpp Require Import gmap strings list.
From Stdlib Require Import ZArith Lia.

Open Scope string_scope.
Open Scope list_scope.
Open Scope nat_scope.

(* ===================================================================== *)
(** ** Tokens and their validity (typedef SpotifyToken, TokenProxy.valid)  *)
(* ===================================================================== *)

(** The typedef at the end of the source gives the two fields the code
    relies on; [_notes] is the field that [getAccessToken] deletes before
    it hands the object out.  Timestamps are [Date.now()] milliseconds:
    integers, far inside the range where a JavaScript number is exact. *)
Record SpotifyToken := {
  accessToken : string;
  accessTokenExpirationTimestampMs : Z;
  _notes : option string
}.

(** [delete json._notes] *)
Definition delete_notes (json : SpotifyToken) : SpotifyToken :=
  {| accessToken := accessToken json;
     accessTokenExpirationTimestampMs := accessTokenExpirationTimestampMs json;
     _notes := None |}.

(** A JavaScript number that may be [NaN] ([None]). *)
Definition jsnum := option Z.

(** [data?.accessTokenExpirationTimestampMs]: [undefined] when [data] is. *)
Definition optional_expiration (data : option SpotifyToken) : option Z :=
  accessTokenExpirationTimestampMs <$> data.

(** [x - 10000], where [undefined - 10000] is [NaN]. *)
Definition js_minus (x : option Z) (y : Z) : jsnum := (fun v => (v - y)%Z) <$> x.

(** [x > y]; every comparison with [NaN] is false. *)
Definition js_gt (x : jsnum) (y : Z) : bool :=
  match x with
  | Some v => (v >? y)%Z
  | None => false
  end.

(** [valid() { return this.data?.accessTokenExpirationTimestampMs - 10000 > Date.now(); }] *)
Definition valid (data : option SpotifyToken) (now : Z) : bool :=
  js_gt (js_minus (optional_expiration data) 10000) now.

(* ===================================================================== *)
(** ** Semaphore                                                           *)
(* ===================================================================== *)

(** A waiter is the [resolve] function that [acquire] pushed; it is named
    by the caller it resumes. *)
Record Semaphore := {
  _locked : bool;
  _waiters : list nat
}.

(** [constructor()] *)
Definition new_Semaphore : Semaphore := {| _locked := false; _waiters := [] |}.

(** What the promise returned by [acquire()] does for caller [w]. *)
Inductive acquired :=
| Immediately   (* resolved with the release function at once *)
| Suspended.    (* pending: the resolver sits in [_waiters] *)

Definition acquire (w : nat) (s : Semaphore) : Semaphore * acquired :=
  if _locked s
  then ({| _locked := _locked s; _waiters := _waiters s ++ [w] |}, Suspended)
  else ({| _locked := true; _waiters := _waiters s |}, Immediately).

(** [_release()]: [shift()] takes the oldest waiter, which is then called
    with the release function; without a waiter the lock is marked free.
    The result names the waiter that was resumed. *)
Definition _release (s : Semaphore) : Semaphore * option nat :=
  match _waiters s with
  | waiter :: rest => ({| _locked := _locked s; _waiters := rest |}, Some waiter)
  | [] => ({| _locked := false; _waiters := [] |}, None)
  end.

(** Operations on one semaphore, in the order they run. *)
Inductive sem_op :=
| OpAcquire (w : nat)
| OpRelease.

(** The semaphore together with what its clients could observe so far:
    who had to wait, in arrival order, and who was resumed, in resumption
    order. *)
Record sem_history := {
  sem : Semaphore;
  arrived : list nat;
  resumed : list nat
}.

Definition sem_start : sem_history :=
  {| sem := new_Semaphore; arrived := []; resumed := [] |}.

Definition sem_step (h : sem_history) (op : sem_op) : sem_history :=
  match op with
  | OpAcquire w =>
      match acquire w (sem h) with
      | (s, Suspended) => {| sem := s; arrived := arrived h ++ [w]; resumed := resumed h |}
      | (s, Immediately) => {| sem := s; arrived := arrived h; resumed := resumed h |}
      end
  | OpRelease =>
      match _release (sem h) with
      | (s, Some w) => {| sem := s; arrived := arrived h; resumed := resumed h ++ [w] |}
      | (s, None) => {| sem := s; arrived := arrived h; resumed := resumed h |}
      end
  end.

Definition sem_run (ops : list sem_op) : sem_history := foldl sem_step sem_start ops.

(* ===================================================================== *)
(** ** getAccessToken: one fetch attempt                                   *)
(* ===================================================================== *)

(** A call of the promise's [resolve] or [reject]. *)
Inductive settle_call :=
| Resolve (json : SpotifyToken)
| Reject (message : string).

(** The state one call of [getAccessToken] owns.  [settles] lists every
    call of [resolve]/[reject], oldest first: the promise takes the first
    and ignores the rest.  [unhandled] lists the errors thrown inside the
    [async] callbacks, whose promises nobody awaits. *)
Record attempt := {
  closes : nat;                         (* calls of browser.close() *)
  settles : list settle_call;
  processedAccessTokenRequest : bool;
  timer : bool;                         (* the 15000 ms timer is armed *)
  listening : bool;                     (* "requestfinished" listener attached *)
  navigating : bool;                    (* page.goto() still pending *)
  awaiting_response : nat;              (* listener runs at await event.response() *)
  awaiting_json : nat;                  (* listener runs at await response.json() *)
  warnings : nat;                       (* deadline warnings logged *)
  unhandled : list string
}.

Definition launched : attempt :=
  {| closes := 0; settles := []; processedAccessTokenRequest := false;
     timer := false; listening := false; navigating := false;
     awaiting_response := 0; awaiting_json := 0; warnings := 0; unhandled := [] |}.

(** The statements of the body, each as a state update. *)
Definition browser_close (a : attempt) : attempt :=
  {| closes := S (closes a); settles := settles a;
     processedAccessTokenRequest := processedAccessTokenRequest a;
     timer := timer a; listening := listening a; navigating := navigating a;
     awaiting_response := awaiting_response a; awaiting_json := awaiting_json a;
     warnings := warnings a; unhandled := unhandled a |}.

Definition settle (c : settle_call) (a : attempt) : attempt :=
  {| closes := closes a; settles := settles a ++ [c];
     processedAccessTokenRequest := processedAccessTokenRequest a;
     timer := timer a; listening := listening a; navigating := navigating a;
     awaiting_response := awaiting_response a; awaiting_json := awaiting_json a;
     warnings := warnings a; unhandled := unhandled a |}.

Definition reject (message : string) : attempt -> attempt := settle (Reject message).
Definition resolve (json : SpotifyToken) : attempt -> attempt := settle (Resolve json).

Definition set_processed (a : attempt) : attempt :=
  {| closes := closes a; settles := settles a;
     processedAccessTokenRequest := true;
     timer := timer a; listening := listening a; navigating := navigating a;
     awaiting_response := awaiting_response a; awaiting_json := awaiting_json a;
     warnings := warnings a; unhandled := unhandled a |}.

Definition set_timer (b : bool) (a : attempt) : attempt :=
  {| closes := closes a; settles := settles a;
     processedAccessTokenRequest := processedAccessTokenRequest a;
     timer := b; listening := listening a; navigating := navigating a;
     awaiting_response := awaiting_response a; awaiting_json := awaiting_json a;
     warnings := warnings a; unhandled := unhandled a |}.

Definition set_listening (b : bool) (a : attempt) : attempt :=
  {| closes := closes a; settles := settles a;
     processedAccessTokenRequest := processedAccessTokenRequest a;
     timer := timer a; listening := b; navigating := navigating a;
     awaiting_response := awaiting_response a; awaiting_json := awaiting_json a;
     warnings := warnings a; unhandled := unhandled a |}.

Definition set_navigating (b : bool) (a : attempt) : attempt :=
  {| closes := closes a; settles := settles a;
     processedAccessTokenRequest := processedAccessTokenRequest a;
     timer := timer a; listening := listening a; navigating := b;
     awaiting_response := awaiting_response a; awaiting_json := awaiting_json a;
     warnings := warnings a; unhandled := unhandled a |}.

Definition set_awaiting (r j : nat) (a : attempt) : attempt :=
  {| closes := closes a; settles := settles a;
     processedAccessTokenRequest := processedAccessTokenRequest a;
     timer := timer a; listening := listening a; navigating := navigating a;
     awaiting_response := r; awaiting_json := j;
     warnings := warnings a; unhandled := unhandled a |}.

Definition log_warning (a : attempt) : attempt :=
  {| closes := closes a; settles := settles a;
     processedAccessTokenRequest := processedAccessTokenRequest a;
     timer := timer a; listening := listening a; navigating := navigating a;
     awaiting_response := awaiting_response a; awaiting_json := awaiting_json a;
     warnings := S (warnings a); unhandled := unhandled a |}.

Definition throw (error : string) (a : attempt) : attempt :=
  {| closes := closes a; settles := settles a;
     processedAccessTokenRequest := processedAccessTokenRequest a;
     timer := timer a; listening := listening a; navigating := navigating a;
     awaiting_response := awaiting_response a; awaiting_json := awaiting_json a;
     warnings := warnings a; unhandled := unhandled a ++ [error] |}.

(** [page.removeAllListeners()] *)
Definition removeAllListeners : attempt -> attempt := set_listening false.

(** The state of the promise [getAccessToken] returned: the first call of
    [resolve] or [reject] decides it. *)
Definition promise (a : attempt) : option settle_call := head (settles a).

(** [s.includes(sub)] *)
Fixpoint includes (s sub : string) : bool :=
  String.prefix sub s ||
  match s with
  | EmptyString => false
  | String _ rest => includes rest sub
  end.

(** The executor, lines 52-105, up to the point where it has registered
    its callbacks.  [browser] and [page] tell whether
    [playwright.chromium.launch()] and [browser.newPage()] produced an
    object or, after the [catch], [undefined]. *)
Definition getAccessToken (browser page : bool) : attempt :=
  if negb browser then reject "Failed to launch browser" launched
  else
    let a := if negb page
             then reject "Failed to open new page" (browser_close launched)
             else launched in
    (* let processedAccessTokenRequest = false; setTimeout(..., 15000) *)
    let a := set_timer true a in
    if negb page
    then (* page.addListener on undefined *)
      throw "TypeError: Cannot read properties of undefined (reading 'addListener')" a
    else (* page.addListener("requestfinished", ...); page.goto(...) *)
      set_navigating true (set_listening true a).

(** What reaches the attempt after the executor returned. *)
Inductive browser_event :=
| Deadline                                   (* the 15000 ms timer fires *)
| RequestFinished (url : string)             (* "requestfinished" is emitted *)
| ResponseSettled (response : option bool)   (* event.response(): null/failed, or response.ok() *)
| JsonSettled (json : option SpotifyToken)   (* response.json(): null when it failed *)
| GotoSettled (err : option string).         (* page.goto(): resolved, or rejected with err *)

(** Lines 69-76. *)
Definition on_deadline (a : attempt) : attempt :=
  let a := if negb (processedAccessTokenRequest a) then log_warning a else a in
  reject "Token fetch exceeded deadline" (browser_close a).

(** Lines 79-84: the listener up to its first [await]. *)
Definition on_requestfinished (url : string) (a : attempt) : attempt :=
  if negb (includes url "/api/token") then a
  else set_awaiting (S (awaiting_response a)) (awaiting_json a) (set_processed a).

(** Lines 86-92: the listener from its first [await] to its second. *)
Definition on_response (response : option bool) (a : attempt) : attempt :=
  match response with
  | Some true => set_awaiting (awaiting_response a) (S (awaiting_json a)) a
  | _ => reject "Invalid response from Spotify." (browser_close (removeAllListeners a))
  end.

(** Lines 93-97: the listener after its second [await].  [delete] on
    [null] throws before [resolve] is reached. *)
Definition on_json (json : option SpotifyToken) (a : attempt) : attempt :=
  let a := browser_close (removeAllListeners a) in
  match json with
  | Some json => resolve (delete_notes json) a
  | None => throw "TypeError: Cannot convert undefined or null to object" a
  end.

(** Lines 100-105: the [catch] of [page.goto]. *)
Definition on_goto (err : option string) (a : attempt) : attempt :=
  match err with
  | Some err =>
      if negb (processedAccessTokenRequest a)
      then reject (String.append "Failed to goto URL: " err) (browser_close a)
      else a
  | None => a
  end.

(** One event.  [None] when the event cannot occur in this state: a timer
    fires once, a removed listener is not called, a continuation runs only
    for a listener that is waiting at that [await]. *)
Definition fetch_step (a : attempt) (e : browser_event) : option attempt :=
  match e with
  | Deadline =>
      if timer a then Some (on_deadline (set_timer false a)) else None
  | RequestFinished url =>
      if listening a then Some (on_requestfinished url a) else None
  | ResponseSettled response =>
      match awaiting_response a with
      | S n => Some (on_response response (set_awaiting n (awaiting_json a) a))
      | O => None
      end
  | JsonSettled json =>
      match awaiting_json a with
      | S n => Some (on_json json (set_awaiting (awaiting_response a) n a))
      | O => None
      end
  | GotoSettled err =>
      if navigating a then Some (on_goto err (set_navigating false a)) else None
  end.

Fixpoint fetch_run (a : attempt) (events : list browser_event) : option attempt :=
  match events with
  | [] => Some a
  | e :: rest =>
      match fetch_step a e with
      | Some a' => fetch_run a' rest
      | None => None
      end
  end.

(* ===================================================================== *)
(** ** handler0: requests sharing the cached token                         *)
(* ===================================================================== *)

(** What [handler0] writes into the Koa context. *)
Inductive response_body :=
| BodyUnset
| BodyToken (data : SpotifyToken)
| BodyEmpty.                        (* ctx.body = {} *)

Record Context := {
  ctx_status : option Z;            (* Some 500 once ctx.status = 500 ran *)
  ctx_body : response_body
}.

Definition fresh_ctx : Context := {| ctx_status := None; ctx_body := BodyUnset |}.

(** [ctx.body = token.data] *)
Definition body_of (data : option SpotifyToken) : response_body :=
  match data with
  | Some d => BodyToken d
  | None => BodyUnset
  end.

(** Where a call of [handler0] stands.  It suspends at the two [await]s
    of lines 151 and 158; each has a state before and after the awaited
    promise settled. *)
Inductive stage :=
| Queued                          (* line 151: acquire() pending, resolver in _waiters *)
| Granted                         (* line 151: acquire() resolved, continuation not yet run *)
| Refreshing                      (* line 158: this.fetch() in flight *)
| Stored (data : SpotifyToken)    (* line 158: the then-callback of refresh() ran *)
| Returned.

Record request := {
  isForce : bool;
  at_stage : stage;
  ctx : Context
}.

(** Calls that leave [handler0]. *)
Inductive effect :=
| Acquire (i : nat)                      (* this.semaphore.acquire() *)
| Fetch (i : nat)                        (* this.fetch(), that is getAccessToken *)
| Release (i : nat)                      (* release() in the finally block *)
| LogError (i : nat) (message : string). (* logWithTimestamp("error", e) *)

(** The module's single [SpotifyTokenHandler], the calls of [handler0] in
    progress, and the effects so far, newest first. *)
Record handler := {
  semaphore : Semaphore;
  cachedAccessToken : option SpotifyToken;
  requests : gmap nat request;
  effects : list effect
}.

(** [constructor()], with a cache slot that may already hold a token. *)
Definition new_handler (cached : option SpotifyToken) : handler :=
  {| semaphore := new_Semaphore; cachedAccessToken := cached;
     requests := ∅; effects := [] |}.

Definition is_fetch (e : effect) : bool :=
  match e with Fetch _ => true | _ => false end.

Fixpoint count (p : effect -> bool) (l : list effect) : nat :=
  match l with
  | [] => 0
  | e :: rest => (if p e then 1 else 0) + count p rest
  end.

(** How often the fetcher was invoked. *)
Definition fetches (s : handler) : nat := count is_fetch (effects s).

Definition at_ (st : stage) (r : request) : request :=
  {| isForce := isForce r; at_stage := st; ctx := ctx r |}.

Definition with_body (b : response_body) (r : request) : request :=
  {| isForce := isForce r; at_stage := at_stage r;
     ctx := {| ctx_status := ctx_status (ctx r); ctx_body := b |} |}.

Definition with_status (n : Z) (r : request) : request :=
  {| isForce := isForce r; at_stage := at_stage r;
     ctx := {| ctx_status := Some n; ctx_body := ctx_body (ctx r) |} |}.

(** Calling a waiter resolves the promise its request awaits. *)
Definition grant (r : request) : request :=
  match at_stage r with
  | Queued => at_ Granted r
  | _ => r
  end.

(** [release()] as called by request [i]. *)
Definition release (i : nat) (s : handler) : handler :=
  match _release (semaphore s) with
  | (sem', Some waiter) =>
      {| semaphore := sem'; cachedAccessToken := cachedAccessToken s;
         requests := alter grant waiter (requests s);
         effects := Release i :: effects s |}
  | (sem', None) =>
      {| semaphore := sem'; cachedAccessToken := cachedAccessToken s;
         requests := requests s;
         effects := Release i :: effects s |}
  end.

Definition put (i : nat) (r : request) (s : handler) : handler :=
  {| semaphore := semaphore s; cachedAccessToken := cachedAccessToken s;
     requests := <[i := r]> (requests s); effects := effects s |}.

Definition emit (e : effect) (s : handler) : handler :=
  {| semaphore := semaphore s; cachedAccessToken := cachedAccessToken s;
     requests := requests s; effects := e :: effects s |}.

Definition store (data : SpotifyToken) (s : handler) : handler :=
  {| semaphore := semaphore s; cachedAccessToken := Some data;
     requests := requests s; effects := effects s |}.

(** The runs of [handler0] between suspension points.  [now] is what
    [Date.now()] returns inside [valid()] during that run. *)
Inductive handler_event :=
| Call (i : nat) (force : bool) (now : Z)   (* handler0(ctx, isForce) up to its first await *)
| AcquireResumes (i : nat) (now : Z)        (* from line 151 to line 158 or to the end *)
| FetchSettles (i : nat) (r : settle_call)  (* the promise of this.fetch() settles *)
| RefreshResumes (i : nat).                 (* from line 158 to the end, after a success *)

(** Lines 145-151. *)
Definition call (i : nat) (force : bool) (now : Z) (s : handler) : handler :=
  if negb force && valid (cachedAccessToken s) now
  then
    put i {| isForce := force; at_stage := Returned;
             ctx := {| ctx_status := None; ctx_body := body_of (cachedAccessToken s) |} |} s
  else
    match acquire i (semaphore s) with
    | (sem', how) =>
        {| semaphore := sem'; cachedAccessToken := cachedAccessToken s;
           requests :=
             <[i := {| isForce := force;
                       at_stage := match how with Immediately => Granted | Suspended => Queued end;
                       ctx := fresh_ctx |}]> (requests s);
           effects := Acquire i :: effects s |}
    end.

(** Lines 153-158, and 164-166 when the double check succeeds. *)
Definition acquire_resumes (i : nat) (r : request) (now : Z) (s : handler) : handler :=
  if negb (isForce r) && valid (cachedAccessToken s) now
  then release i (put i (at_ Returned (with_body (body_of (cachedAccessToken s)) r)) s)
  else emit (Fetch i) (put i (at_ Refreshing r) s).

(** Lines 138-141 when the fetch resolved; lines 160-166 when it rejected. *)
Definition fetch_settles (i : nat) (r : request) (result : settle_call) (s : handler) : handler :=
  match result with
  | Resolve data => store data (put i (at_ (Stored data) r) s)
  | Reject message =>
      release i
        (put i (at_ Returned (with_body BodyEmpty (with_status 500 r)))
           (emit (LogError i message) s))
  end.

(** Lines 158, 164-166. *)
Definition refresh_resumes (i : nat) (r : request) (data : SpotifyToken) (s : handler) : handler :=
  release i (put i (at_ Returned (with_body (BodyToken data) r)) s).

(** One run.  [None] when it cannot happen: a request identifier is used
    once, and a continuation runs only for a request suspended there
    whose awaited promise has settled. *)
Definition handler_step (s : handler) (e : handler_event) : option handler :=
  match e with
  | Call i force now =>
      match requests s !! i with
      | None => Some (call i force now s)
      | Some _ => None
      end
  | AcquireResumes i now =>
      match requests s !! i with
      | Some r => match at_stage r with
                  | Granted => Some (acquire_resumes i r now s)
                  | _ => None
                  end
      | None => None
      end
  | FetchSettles i result =>
      match requests s !! i with
      | Some r => match at_stage r with
                  | Refreshing => Some (fetch_settles i r result s)
                  | _ => None
                  end
      | None => None
      end
  | RefreshResumes i =>
      match requests s !! i with
      | Some r => match at_stage r with
                  | Stored data => Some (refresh_resumes i r data s)
                  | _ => None
                  end
      | None => None
      end
  end.

Fixpoint handler_run (s : handler) (events : list handler_event) : option handler :=
  match events with
  | [] => Some s
  | e :: rest =>
      match handler_step s e with
      | Some s' => handler_run s' rest
      | None => None
      end
  end.

(** A request holds the lock from the moment [acquire()] resolved for it
    until it called [release()]. *)
Definition holds (st : stage) : bool :=
  match st with
  | Granted | Refreshing | Stored _ => true
  | Queued | Returned => false
  end.

Definition holder (s : handler) (i : nat) : Prop :=
  ∃ r, requests s !! i = Some r ∧ holds (at_stage r) = true.

(** The mutual-exclusion facts about a semaphore [sm] and the requests
    [rs] that use it. *)
Record lock_inv (sm : Semaphore) (rs : gmap nat request) : Prop := {
  inv_locked :
    _locked sm = true ↔ ∃ i r, rs !! i = Some r ∧ holds (at_stage r) = true;
  inv_single :
    ∀ i j ri rj, rs !! i = Some ri → rs !! j = Some rj →
      holds (at_stage ri) = true → holds (at_stage rj) = true → i = j;
  inv_queue :
    ∀ i, i ∈ _waiters sm ↔ ∃ r, rs !! i = Some r ∧ at_stage r = Queued;
  inv_nodup : NoDup (_waiters sm);
  inv_waiting : _waiters sm ≠ [] → _locked sm = true
}.


(** Every call of [resolve] or [reject] comes with a [browser.close()],
    and the timer is disarmed only by firing, which rejects. *)
Definition settled_closed (a : attempt) : Prop :=
  (settles a ≠ [] → 1 ≤ closes a) ∧ (timer a = false → settles a ≠ []).

(** Sample data for the examples. *)
Definition token_url : string := "https://open.spotify.com/api/token".

Definition sample_token : SpotifyToken :=
  {| accessToken := "BQC"; accessTokenExpirationTimestampMs := 1700000000000;
     _notes := Some "internal" |}.

(** A run in which no call is forced, every fetch resolves with [tok],
    and at each reading of the clock the token cached at the start is
    not valid while [tok] is. *)
Definition steady (cached : option SpotifyToken) (tok : SpotifyToken) (e : handler_event) : Prop :=
  match e with
  | Call _ force now =>
      force = false ∧ valid cached now = false ∧ valid (Some tok) now = true
  | AcquireResumes _ now => valid cached now = false ∧ valid (Some tok) now = true
  | FetchSettles _ result => result = Resolve tok
  | RefreshResumes _ => True
  end.

(** How far the one refresh of a steady run has come. *)
Inductive phase :=
| Idle        (* no fetch yet *)
| InFlight    (* the fetch is running *)
| Refreshed.  (* the fetch resolved and its token is cached *)

Definition stage_in (p : phase) (tok : SpotifyToken) (r : request) : Prop :=
  isForce r = false ∧ ctx_status (ctx r) = None ∧
  match at_stage r, p with
  | Queued, _ | Granted, _ => True
  | Refreshing, InFlight => True
  | Stored data, Refreshed => data = tok
  | Returned, Refreshed => ctx_body (ctx r) = BodyToken tok
  | _, _ => False
  end.

Definition flight_inv (cached : option SpotifyToken) (tok : SpotifyToken) (s : handler) : Prop :=
  ∃ p,
    (∀ i r, requests s !! i = Some r → stage_in p tok r) ∧
    match p with
    | Idle => fetches s = 0 ∧ cachedAccessToken s = cached
    | InFlight =>
        fetches s = 1 ∧ cachedAccessToken s = cached ∧
        ∃ i r, requests s !! i = Some r ∧ at_stage r = Refreshing
    | Refreshed => fetches s = 1 ∧ cachedAccessToken s = Some tok
    end.

Definition expired_token : SpotifyToken :=
  {| accessToken := "old"; accessTokenExpirationTimestampMs := 1000; _notes := None |}.

(** [n + 1] unforced calls arriving together at time [now], followed by
    the continuations in the only order the lock allows when the fetch of
    the first resolves with [tok]. *)
Definition burst (n : nat) (now : Z) (tok : SpotifyToken) : list handler_event :=
  map (fun i => Call i false now) (seq 0 (S n)) ++
  [AcquireResumes 0 now; FetchSettles 0 (Resolve tok); RefreshResumes 0] ++
  map (fun i => AcquireResumes i now) (seq 1 n).

Definition returned_request (tok : SpotifyToken) : request :=
  {| isForce := false; at_stage := Returned;
     ctx := {| ctx_status := None; ctx_body := BodyToken tok |} |}.

Definition waiting_request (st : stage) : request :=
  {| isForce := false; at_stage := st; ctx := fresh_ctx |}.

(** The requests [0..k] in a row: those below [j] have returned [tok],
    [j] holds the lock at stage [st], the others queue behind it. *)
Definition lined_up (tok : SpotifyToken) (st : stage) (j k : nat) (s : handler) : Prop :=
  semaphore s = {| _locked := true; _waiters := seq (S j) (k - j) |} ∧
  requests s !! j = Some (waiting_request st) ∧
  (∀ i, i < j → requests s !! i = Some (returned_request tok)) ∧
  (∀ i, j < i ≤ k → requests s !! i = Some (waiting_request Queued)) ∧
  (∀ i, k < i → requests s !! i = None).

Definition all_returned (tok : SpotifyToken) (k : nat) (s : handler) : Prop :=
  semaphore s = new_Semaphore ∧
  cachedAccessToken s = Some tok ∧
  ∀ i, i ≤ k → requests s !! i = Some (returned_request tok).

(* ===================================================================== *)
(** ** handler: the route's entry point                                    *)
(* ===================================================================== *)

From Stdlib Require Import Ascii.






(* ===================================================================== *)
(** ** Accounting of what each request did                                 *)
(* ===================================================================== *)

Definition acquire_by (i : nat) (e : effect) : bool :=
  match e with Acquire j => i =? j | _ => false end.

Definition release_by (i : nat) (e : effect) : bool :=
  match e with Release j => i =? j | _ => false end.

Definition fetch_by (i : nat) (e : effect) : bool :=
  match e with Fetch j => i =? j | _ => false end.

Definition error_by (i : nat) (e : effect) : bool :=
  match e with LogError j _ => i =? j | _ => false end.

(** The calls request [i] made, in the order acquire, release, fetch,
    logged error. *)
Definition tally (i : nat) (s : handler) : nat * nat * nat * nat :=
  (count (acquire_by i) (effects s), count (release_by i) (effects s),
   count (fetch_by i) (effects s), count (error_by i) (effects s)).

Definition token_ctx (data : SpotifyToken) : Context :=
  {| ctx_status := None; ctx_body := BodyToken data |}.

Definition error_ctx : Context :=
  {| ctx_status := Some 500%Z; ctx_body := BodyEmpty |}.

(** What a request has done and written, by the stage it is at.  A
    request that has returned took one of four ways through [handler0]:
    served at line 146, served at line 156, refreshed, or failed. *)
Definition request_ok (s : handler) (i : nat) (r : request) : Prop :=
  match at_stage r with
  | Queued | Granted => tally i s = (1, 0, 0, 0) ∧ ctx r = fresh_ctx
  | Refreshing | Stored _ => tally i s = (1, 0, 1, 0) ∧ ctx r = fresh_ctx
  | Returned =>
      (tally i s = (0, 0, 0, 0) ∧ isForce r = false ∧ ∃ d, ctx r = token_ctx d) ∨
      (tally i s = (1, 1, 0, 0) ∧ isForce r = false ∧ ∃ d, ctx r = token_ctx d) ∨
      (tally i s = (1, 1, 1, 0) ∧ ∃ d, ctx r = token_ctx d) ∨
      (tally i s = (1, 1, 1, 1) ∧ ctx r = error_ctx)
  end.

Definition accounted (s : handler) : Prop :=
  ∀ i,
    match requests s !! i with
    | Some r => request_ok s i r
    | None => tally i s = (0, 0, 0, 0)
    end.

(** The token of the last fetch that resolved, [cached] when none did. *)
Definition last_resolved (cached : option SpotifyToken) (events : list handler_event)
    : option SpotifyToken :=
  foldl (fun c e => match e with
                    | FetchSettles _ (Resolve data) => Some data
                    | _ => c
                    end) cached events.

(** The request an effect belongs to. *)
Definition made_by (e : effect) : nat :=
  match e with
  | Acquire i | Fetch i | Release i | LogError i _ => i
  end.

(* ===================================================================== *)
(** ** What an attempt can report                                          *)
(* ===================================================================== *)

(** The calls of [resolve] and [reject] that [getAccessToken] contains:
    a token whose [_notes] was deleted, or one of its five errors. *)
Definition expected_settle (c : settle_call) : Prop :=
  match c with
  | Resolve json => _notes json = None
  | Reject message =>
      message ∈ ["Failed to launch browser"; "Failed to open new page";
                 "Token fetch exceeded deadline"; "Invalid response from Spotify."] ∨
      ∃ err, message = String.append "Failed to goto URL: " err
  end.
(* ===================================================================== *)
(** * Properties                                                           *)
(* ===================================================================== *)

(** ** Validity of a cached token *)

Lemma valid_spec (c : SpotifyToken) (now : Z) :
  valid (Some c) now = true ↔ (now < accessTokenExpirationTimestampMs c - 10000)%Z.
Proof.
  unfold valid, optional_expiration, js_minus, js_gt. simpl.
  rewrite Z.gtb_ltb, Z.ltb_lt. reflexivity.
Qed.

Lemma valid_false_later (data : option SpotifyToken) (now now' : Z) :
  valid data now = false → (now ≤ now')%Z → valid data now' = false.
Proof.
  destruct data as [c|]; [|reflexivity].
  intros H Hle. apply not_true_is_false. intros Hv.
  apply valid_spec in Hv.
  assert (valid (Some c) now = true) by (apply valid_spec; lia).
  congruence.
Qed.

(** C3: a cached token is valid exactly when [now < expiry - 10000],
    strictly: with 10000 ms left it is invalid, with 10001 ms valid, with
    9999 ms invalid. *)
Theorem valid_boundary (c : SpotifyToken) (now : Z) :
  let expiry := accessTokenExpirationTimestampMs c in
  (valid (Some c) now = true ↔ (now < expiry - 10000)%Z) ∧
  valid (Some c) (expiry - 10000) = false ∧
  valid (Some c) (expiry - 10001) = true ∧
  valid (Some c) (expiry - 9999) = false.
Proof.
  cbv zeta. split; [apply valid_spec|].
  split; [|split].
  - apply not_true_is_false. rewrite valid_spec. lia.
  - apply valid_spec. lia.
  - apply not_true_is_false. rewrite valid_spec. lia.
Qed.

(** ** The semaphore alone *)

Lemma sem_run_snoc (ops : list sem_op) (op : sem_op) :
  sem_run (ops ++ [op]) = sem_step (sem_run ops) op.
Proof. unfold sem_run. rewrite foldl_app. reflexivity. Qed.

(** Whoever waits is behind those already resumed, in arrival order, and
    nobody waits on a free lock. *)
Lemma sem_run_queue (ops : list sem_op) :
  arrived (sem_run ops) = resumed (sem_run ops) ++ _waiters (sem (sem_run ops)) ∧
  (_waiters (sem (sem_run ops)) ≠ [] → _locked (sem (sem_run ops)) = true).
Proof.
  induction ops as [|op ops [IHq IHl]] using rev_ind.
  - split; [reflexivity | intros H; contradiction H; reflexivity].
  - rewrite sem_run_snoc. set (h := sem_run ops) in *.
    destruct op as [w|]; unfold sem_step, acquire, _release.
    + destruct (_locked (sem h)) eqn:Hl; simpl.
      * split; [|reflexivity]. rewrite IHq, <- app_assoc. reflexivity.
      * split; [exact IHq | reflexivity].
    + destruct (_waiters (sem h)) as [|w rest] eqn:Hw; simpl.
      * split; [|intros H; contradiction H; reflexivity].
        rewrite IHq. reflexivity.
      * split; [|intros _; apply IHl; discriminate].
        rewrite IHq, <- app_assoc. reflexivity.
Qed.

(** C7: after any sequence of operations the waiters resumed so far,
    followed by those still queued, are the suspended callers in arrival
    order; and [_release] either resumes the oldest waiter, the lock
    being held before and after, or marks the lock free when nobody
    waits. *)
Theorem semaphore_fifo (ops : list sem_op) :
  let h := sem_run ops in
  arrived h = resumed h ++ _waiters (sem h) ∧
  _release (sem h) =
    match _waiters (sem h) with
    | w :: rest => ({| _locked := true; _waiters := rest |}, Some w)
    | [] => ({| _locked := false; _waiters := [] |}, None)
    end ∧
  match _waiters (sem h) with
  | _ :: _ => _locked (sem h) = true
  | [] => True
  end.
Proof.
  cbv zeta. destruct (sem_run_queue ops) as [Hq Hl].
  split; [exact Hq|]. unfold _release.
  destruct (_waiters (sem (sem_run ops))) as [|w rest]; [split; reflexivity|].
  rewrite Hl by discriminate. split; reflexivity.
Qed.

(** Three callers arrive while a fourth holds the lock; the releases
    resume them in arrival order. *)
Example three_waiters_fifo :
  resumed (sem_run [OpAcquire 0; OpAcquire 1; OpAcquire 2; OpAcquire 3;
                    OpRelease; OpRelease; OpRelease]) = [1; 2; 3].
Proof. reflexivity. Qed.

(** ** One fetch attempt *)


Lemma promise_settle (c : settle_call) (a : attempt) :
  promise (settle c a) = Some (default c (promise a)).
Proof. unfold promise, settle. simpl. destruct (settles a); reflexivity. Qed.

(** An event is taken only in a state that enables it. *)
Ltac enabled :=
  match goal with
  | |- (if ?b then _ else _) = Some _ → _ => destruct b; [|discriminate]
  | |- match ?n with O => None | S _ => _ end = Some _ → _ => destruct n; [discriminate|]
  end;
  intros [= <-];
  unfold on_deadline, on_requestfinished, on_response, on_json, on_goto; simpl;
  try match goal with |- context [negb ?b] => destruct (negb b); simpl end.

(** No statement of the attempt undoes a settlement or a close. *)
Lemma fetch_step_keeps (a a' : attempt) (e : browser_event) :
  fetch_step a e = Some a' →
  closes a ≤ closes a' ∧ ∀ c, promise a = Some c → promise a' = Some c.
Proof.
  assert (Hs : ∀ c0 b c, promise b = Some c → promise (settle c0 b) = Some c).
  { intros c0 b c Hb. rewrite promise_settle, Hb. reflexivity. }
  destruct e as [|url|[[|]|]|[json|]|[err|]]; simpl; enabled;
    (split; [lia|]); intros c Hc; first [exact Hc | apply Hs; exact Hc].
Qed.

Lemma fetch_run_keeps (events : list browser_event) (a a' : attempt) :
  fetch_run a events = Some a' →
  closes a ≤ closes a' ∧ ∀ c, promise a = Some c → promise a' = Some c.
Proof.
  revert a. induction events as [|e events IH]; intros a; simpl.
  - intros [= <-]. split; [lia | auto].
  - destruct (fetch_step a e) as [a1|] eqn:He; [|discriminate].
    intros Hrun. apply fetch_step_keeps in He as [Hc Hp].
    apply IH in Hrun as [Hc' Hp']. split; [lia | auto].
Qed.


Lemma settled_closed_step (a a' : attempt) (e : browser_event) :
  settled_closed a → fetch_step a e = Some a' → settled_closed a'.
Proof.
  unfold settled_closed. intros [Hc Ht].
  assert (Hne : ∀ (l : list settle_call) c, l ++ [c] ≠ []) by (intros [|] ?; discriminate).
  destruct e as [|url|[[|]|]|[json|]|[err|]]; simpl; enabled;
    split; first [assumption | lia | intros _; apply Hne].
Qed.

Lemma settled_closed_run (events : list browser_event) (a a' : attempt) :
  settled_closed a → fetch_run a events = Some a' → settled_closed a'.
Proof.
  revert a. induction events as [|e events IH]; intros a Ha; simpl.
  - intros [= <-]. exact Ha.
  - destruct (fetch_step a e) as [a1|] eqn:He; [|discriminate].
    apply IH. eapply settled_closed_step; eassumption.
Qed.

Lemma settled_closed_start (page : bool) : settled_closed (getAccessToken true page).
Proof. destruct page; split; simpl; (lia || discriminate || congruence). Qed.

(** C2, as stated, fails: the token request is observed and answered in
    time, and the timer, which nothing cancels, fires afterwards.  The
    browser is closed twice, and both [resolve] and [reject] are called. *)
Lemma success_then_deadline_closes_twice :
  ∃ a,
    fetch_run (getAccessToken true true)
      [RequestFinished token_url; ResponseSettled (Some true);
       JsonSettled (Some sample_token); Deadline] = Some a ∧
    closes a = 2 ∧
    settles a = [Resolve (delete_notes sample_token);
                 Reject "Token fetch exceeded deadline"].
Proof. eexists. split; [vm_compute; reflexivity|]. split; reflexivity. Qed.

(** C2, amended: once the browser launched, whatever events arrive in
    whatever order, the promise is settled at most once, by the first
    call of [resolve] or [reject], and later events leave it as it is; it
    is settled at the latest when the timer fires, and the timer can fire
    as long as it has not; and a settled attempt has closed the browser at
    least once (later events may close it again). *)
Theorem attempt_settles_once (page : bool) (events : list browser_event) (a : attempt) :
  fetch_run (getAccessToken true page) events = Some a →
  (timer a = false → ∃ c, promise a = Some c) ∧
  (timer a = true → ∃ a', fetch_step a Deadline = Some a' ∧ ∃ c, promise a' = Some c) ∧
  (∀ c, promise a = Some c → 1 ≤ closes a) ∧
  (∀ c more a', promise a = Some c → fetch_run a more = Some a' →
     promise a' = Some c ∧ closes a ≤ closes a').
Proof.
  intros Hrun.
  pose proof (settled_closed_run _ _ _ (settled_closed_start page) Hrun) as [Hc Ht].
  assert (Hp : ∀ b, settles b ≠ [] → ∃ c, promise b = Some c).
  { intros b Hb. unfold promise. destruct (settles b) as [|c l]; [contradiction|].
    exists c. reflexivity. }
  split; [|split; [|split]].
  - intros Hoff. apply Hp, Ht, Hoff.
  - intros Hon. eexists. split; [simpl; rewrite Hon; reflexivity|].
    apply Hp. unfold on_deadline. destruct (negb _); simpl;
      destruct (settles a); discriminate.
  - intros c Hs. apply Hc. unfold promise in Hs. destruct (settles a); discriminate.
  - intros c more a' Hs Hmore. apply fetch_run_keeps in Hmore as [Hle Hkeep].
    split; [apply Hkeep, Hs | exact Hle].
Qed.

(** The deadline fires while the listener waits for the response. *)
Lemma attempt_settles_once_witness :
  ∃ a,
    fetch_run (getAccessToken true true)
      [RequestFinished token_url; Deadline; ResponseSettled (Some true)] = Some a ∧
    promise a = Some (Reject "Token fetch exceeded deadline") ∧
    closes a = 1 ∧
    ((timer a = false → ∃ c, promise a = Some c) ∧
     (timer a = true → ∃ a', fetch_step a Deadline = Some a' ∧ ∃ c, promise a' = Some c) ∧
     (∀ c, promise a = Some c → 1 ≤ closes a) ∧
     (∀ c more a', promise a = Some c → fetch_run a more = Some a' →
        promise a' = Some c ∧ closes a ≤ closes a')).
Proof.
  eexists. split; [vm_compute; reflexivity|]. split; [reflexivity|]. split; [reflexivity|].
  apply (attempt_settles_once true
           [RequestFinished token_url; Deadline; ResponseSettled (Some true)]).
  vm_compute. reflexivity.
Defined.

(** What the listener does with the response of the token request. *)
Lemma invalid_response_rejects (a : attempt) (n : nat) (response : option bool) :
  awaiting_response a = S n → response ≠ Some true →
  ∃ a', fetch_step a (ResponseSettled response) = Some a' ∧
        settles a' = settles a ++ [Reject "Invalid response from Spotify."] ∧
        closes a' = S (closes a) ∧ listening a' = false.
Proof.
  intros Hn Hr. simpl. rewrite Hn.
  destruct response as [[|]|]; [contradiction Hr; reflexivity| |];
    eexists; (split; [reflexivity|]); simpl; auto.
Qed.

Lemma parsed_response_resolves (a : attempt) (n : nat) (json : SpotifyToken) :
  awaiting_json a = S n →
  ∃ a', fetch_step a (JsonSettled (Some json)) = Some a' ∧
        settles a' = settles a ++ [Resolve (delete_notes json)] ∧
        closes a' = S (closes a) ∧ listening a' = false.
Proof.
  intros Hn. simpl. rewrite Hn. eexists. split; [reflexivity|]. simpl. auto.
Qed.

(** C6 at the input where it fails: the token request is observed, its
    response is ok, and [response.json()] fails.  The listener closes the
    browser and then throws at [delete json._notes]: it calls neither
    [reject] nor [resolve], so no "Invalid response" failure is reported,
    and the attempt stays pending until the timer rejects it with the
    deadline error, closing the browser a second time. *)
Theorem unparseable_response_not_reported :
  ∃ a a',
    fetch_run (getAccessToken true true)
      [RequestFinished token_url; ResponseSettled (Some true); JsonSettled None] = Some a ∧
    settles a = [] ∧ promise a = None ∧ closes a = 1 ∧
    unhandled a = ["TypeError: Cannot convert undefined or null to object"] ∧
    fetch_step a Deadline = Some a' ∧
    promise a' = Some (Reject "Token fetch exceeded deadline") ∧
    closes a' = 2.
Proof.
  do 2 eexists. split; [vm_compute; reflexivity|].
  repeat (split; [vm_compute; reflexivity|]). reflexivity.
Qed.

(** C9: when [browser.newPage()] fails after the browser launched, the
    executor closes the browser and rejects, and goes on: it arms the
    timer and then throws at [page.addListener], the page being
    undefined, so no listener is attached and no navigation starts.  A
    failed launch, in contrast, returns right after its [reject]. *)
Theorem page_failure_does_not_return :
  getAccessToken true false =
    {| closes := 1; settles := [Reject "Failed to open new page"];
       processedAccessTokenRequest := false;
       timer := true; listening := false; navigating := false;
       awaiting_response := 0; awaiting_json := 0; warnings := 0;
       unhandled :=
         ["TypeError: Cannot read properties of undefined (reading 'addListener')"] |} ∧
  (∀ page, timer (getAccessToken false page) = false ∧
           unhandled (getAccessToken false page) = [] ∧
           settles (getAccessToken false page) = [Reject "Failed to launch browser"]) ∧
  ∃ a, fetch_step (getAccessToken true false) Deadline = Some a ∧
       closes a = 2 ∧
       promise a = Some (Reject "Failed to open new page").
Proof.
  split; [vm_compute; reflexivity|]. split.
  - intros page. destruct page; repeat split; reflexivity.
  - eexists. split; [vm_compute; reflexivity|]. split; reflexivity.
Qed.

(** ** The lock as [handler0] uses it *)

Lemma lock_inv_new : lock_inv new_Semaphore ∅.
Proof.
  split; simpl.
  - split; [discriminate|]. intros (i & r & H & _). rewrite lookup_empty in H. discriminate.
  - intros i j ri rj H. rewrite lookup_empty in H. discriminate.
  - intros i. split; [intros H; inversion H|].
    intros (r & H & _). rewrite lookup_empty in H. discriminate.
  - constructor.
  - intros H. contradiction H. reflexivity.
Qed.

(** A request that returns without touching the lock. *)
Lemma lock_inv_bystander (sm : Semaphore) (rs : gmap nat request) (i : nat) (r : request) :
  lock_inv sm rs → rs !! i = None → at_stage r = Returned →
  lock_inv sm (<[i := r]> rs).
Proof.
  intros [Hl Hs Hq Hn Hw] Hi Hr. split; try assumption.
  - rewrite Hl. split; intros (j & rj & Hj & Hh).
    + exists j, rj. split; [|exact Hh]. rewrite lookup_insert_ne; [exact Hj | congruence].
    + apply lookup_insert_Some in Hj as [[-> ->]|[Hne Hj]]; [rewrite Hr in Hh; discriminate|].
      eauto.
  - intros j k rj rk Hj Hk Hhj Hhk.
    apply lookup_insert_Some in Hj as [[-> ->]|[_ Hj]]; [rewrite Hr in Hhj; discriminate|].
    apply lookup_insert_Some in Hk as [[-> ->]|[_ Hk]]; [rewrite Hr in Hhk; discriminate|].
    eauto.
  - intros j. rewrite Hq. split; intros (rj & Hj & Hst).
    + exists rj. split; [|exact Hst]. rewrite lookup_insert_ne; [exact Hj | congruence].
    + apply lookup_insert_Some in Hj as [[-> ->]|[_ Hj]]; [congruence | eauto].
Qed.

(** The holder moves on to another stage in which it still holds. *)
Lemma lock_inv_restage (sm : Semaphore) (rs : gmap nat request) (i : nat) (r r' : request) :
  lock_inv sm rs → rs !! i = Some r → holds (at_stage r) = true →
  holds (at_stage r') = true →
  lock_inv sm (<[i := r']> rs).
Proof.
  intros [Hl Hs Hq Hn Hw] Hi Hr Hr'. split; try assumption.
  - rewrite Hl. split; intros _; [|eauto].
    exists i, r'. rewrite lookup_insert_eq. auto.
  - intros j k rj rk Hj Hk Hhj Hhk.
    apply lookup_insert_Some in Hj as [[<- <-]|[Hnj Hj]];
      apply lookup_insert_Some in Hk as [[<- <-]|[Hnk Hk]]; eauto.
  - intros j. rewrite Hq. split; intros (rj & Hj & Hst).
    + exists rj. split; [|exact Hst]. rewrite lookup_insert_ne; [exact Hj|].
      intros <-. rewrite Hi in Hj. injection Hj as <-. rewrite Hst in Hr. discriminate.
    + apply lookup_insert_Some in Hj as [[<- <-]|[_ Hj]]; [|eauto].
      rewrite Hst in Hr'. discriminate.
Qed.

(** [acquire()] by a new request. *)
Lemma lock_inv_acquire (sm : Semaphore) (rs : gmap nat request) (i : nat) (f : bool) (c : Context) :
  lock_inv sm rs → rs !! i = None →
  lock_inv (acquire i sm).1
    (<[i := {| isForce := f;
               at_stage := match (acquire i sm).2 with
                           | Immediately => Granted
                           | Suspended => Queued
                           end;
               ctx := c |}]> rs).
Proof.
  intros [Hl Hs Hq Hn Hw] Hi. unfold acquire.
  destruct (_locked sm) eqn:Hlock; simpl.
  - split; simpl.
    + split; [intros _|reflexivity].
      destruct Hl as [Hl _]. destruct (Hl eq_refl) as (j & rj & Hj & Hh).
      exists j, rj. split; [|exact Hh]. rewrite lookup_insert_ne; [exact Hj | congruence].
    + intros j k rj rk Hj Hk Hhj Hhk.
      apply lookup_insert_Some in Hj as [[<- <-]|[_ Hj]]; [discriminate|].
      apply lookup_insert_Some in Hk as [[<- <-]|[_ Hk]]; [discriminate|].
      eauto.
    + intros j. rewrite elem_of_app, list_elem_of_singleton, Hq.
      split.
      * intros [(rj & Hj & Hst)| ->].
        -- exists rj. split; [|exact Hst]. rewrite lookup_insert_ne; [exact Hj | congruence].
        -- eexists. rewrite lookup_insert_eq. split; reflexivity.
      * intros (rj & Hj & Hst).
        apply lookup_insert_Some in Hj as [[<- <-]|[_ Hj]]; [right; reflexivity | left; eauto].
    + apply NoDup_app. split; [exact Hn|]. split; [|apply NoDup_singleton].
      intros j Hj Hji. apply list_elem_of_singleton in Hji as ->.
      apply Hq in Hj as (rj & Hj & _). congruence.
    + reflexivity.
  - assert (Hnone : ∀ j rj, rs !! j = Some rj → holds (at_stage rj) = false).
    { intros j rj Hj. apply not_true_is_false. intros Hh.
      assert (false = true) by (apply Hl; eauto). discriminate. }
    split; simpl.
    + split; [intros _|reflexivity].
      eexists i, _. rewrite lookup_insert_eq. split; reflexivity.
    + intros j k rj rk Hj Hk Hhj Hhk.
      apply lookup_insert_Some in Hj as [[<- <-]|[_ Hj]];
        apply lookup_insert_Some in Hk as [[<- <-]|[_ Hk]]; try reflexivity.
      * apply Hnone in Hk. congruence.
      * apply Hnone in Hj. congruence.
      * eauto.
    + intros j. rewrite Hq. split; intros (rj & Hj & Hst).
      * exists rj. split; [|exact Hst]. rewrite lookup_insert_ne; [exact Hj | congruence].
      * apply lookup_insert_Some in Hj as [[<- <-]|[_ Hj]]; [discriminate | eauto].
    + exact Hn.
    + reflexivity.
Qed.

(** [release()] by the holder, which has returned. *)
Lemma lock_inv_release (sm : Semaphore) (rs : gmap nat request) (i : nat) (r r' : request) :
  lock_inv sm rs → rs !! i = Some r → holds (at_stage r) = true →
  at_stage r' = Returned →
  lock_inv (_release sm).1
    (match (_release sm).2 with
     | Some waiter => alter grant waiter (<[i := r']> rs)
     | None => <[i := r']> rs
     end).
Proof.
  intros [Hl Hs Hq Hn Hw] Hi Hr Hr'.
  assert (Hlock : _locked sm = true) by (apply Hl; eauto).
  assert (Hsole : ∀ j rj, rs !! j = Some rj → holds (at_stage rj) = true → j = i)
    by (intros; eauto).
  unfold _release. destruct (_waiters sm) as [|w rest] eqn:Hws; simpl.
  - assert (Hnoq : ∀ j rj, rs !! j = Some rj → at_stage rj ≠ Queued).
    { intros j rj Hj Hst. assert (Hin : j ∈ []) by (apply Hq; eauto). inversion Hin. }
    split; simpl.
    + split; [discriminate|]. intros (j & rj & Hj & Hh).
      apply lookup_insert_Some in Hj as [[<- <-]|[Hne Hj]]; [rewrite Hr' in Hh; discriminate|].
      contradiction Hne. symmetry. eauto.
    + intros j k rj rk Hj Hk Hhj Hhk.
      apply lookup_insert_Some in Hj as [[<- <-]|[Hne Hj]]; [rewrite Hr' in Hhj; discriminate|].
      contradiction Hne. symmetry. eauto.
    + intros j. split; [intros H; inversion H|]. intros (rj & Hj & Hst).
      apply lookup_insert_Some in Hj as [[<- <-]|[Hne Hj]]; [congruence|].
      exfalso. eapply Hnoq; eauto.
    + constructor.
    + intros H. contradiction H. reflexivity.
  - assert (Hwq : ∃ rw, rs !! w = Some rw ∧ at_stage rw = Queued)
      by (apply Hq; left).
    destruct Hwq as (rw & Hw' & Hwst).
    assert (Hwi : i ≠ w).
    { intros ->. rewrite Hi in Hw'. injection Hw' as ->. rewrite Hwst in Hr. discriminate. }
    apply NoDup_cons in Hn as [Hwrest Hn].
    assert (Hlook : ∀ j rj,
      alter grant w (<[i := r']> rs) !! j = Some rj ↔
        (j = w ∧ rj = at_ Granted rw) ∨ (j = i ∧ rj = r') ∨
        (j ≠ w ∧ j ≠ i ∧ rs !! j = Some rj)).
    { intros j rj. rewrite lookup_alter_Some. split.
      - intros [[<- (x & Hx & ->)]|[Hne Hj]].
        + rewrite lookup_insert_ne in Hx by exact Hwi.
          rewrite Hw' in Hx. injection Hx as <-. left. split; [reflexivity|].
          unfold grant. rewrite Hwst. reflexivity.
        + apply lookup_insert_Some in Hj as [[<- <-]|[Hne' Hj]]; [auto|].
          right. right. auto.
      - intros [[-> ->]|[[-> ->]|(Hjw & Hji & Hj)]].
        + left. split; [reflexivity|]. exists rw.
          rewrite lookup_insert_ne by exact Hwi. split; [exact Hw'|].
          unfold grant. rewrite Hwst. reflexivity.
        + right. split; [congruence|]. apply lookup_insert_eq.
        + right. split; [congruence|]. rewrite lookup_insert_ne; [exact Hj | congruence]. }
    split; simpl.
    + rewrite Hlock. split; [intros _|reflexivity].
      exists w, (at_ Granted rw). split; [apply Hlook; auto | reflexivity].
    + intros j k rj rk Hj Hk Hhj Hhk.
      apply Hlook in Hj as [[-> ->]|[[-> ->]|(Hjw & Hji & Hj)]];
        apply Hlook in Hk as [[-> ->]|[[-> ->]|(Hkw & Hki & Hk)]];
        try reflexivity;
        try (rewrite Hr' in *; discriminate).
      * contradiction Hki. eauto.
      * contradiction Hji. eauto.
      * contradiction Hji. eauto.
    + intros j. split.
      * intros Hj. assert (Hjq : j ∈ w :: rest) by (right; exact Hj).
        apply Hq in Hjq as (rj & Hjr & Hst). exists rj. split; [|exact Hst].
        apply Hlook. right. right. split; [intros ->; contradiction|]. split; [|exact Hjr].
        intros ->. rewrite Hi in Hjr. injection Hjr as ->. rewrite Hst in Hr. discriminate.
      * intros (rj & Hj & Hst).
        apply Hlook in Hj as [[-> ->]|[[-> ->]|(Hjw & Hji & Hj)]];
          [discriminate | congruence |].
        assert (Hjq : j ∈ w :: rest) by (apply Hq; eauto).
        apply elem_of_cons in Hjq as [->|Hjq]; [contradiction | exact Hjq].
    + exact Hn.
    + intros _. exact Hlock.
Qed.

(** The invariant of the lock, on the states of the handler. *)
Lemma release_lock (i : nat) (s : handler) :
  semaphore (release i s) = (_release (semaphore s)).1 ∧
  requests (release i s) =
    match (_release (semaphore s)).2 with
    | Some waiter => alter grant waiter (requests s)
    | None => requests s
    end ∧
  cachedAccessToken (release i s) = cachedAccessToken s ∧
  effects (release i s) = Release i :: effects s.
Proof.
  unfold release. destruct (_release (semaphore s)) as [sm [w|]]; simpl; auto.
Qed.

(** What a step that happened was. *)
Lemma handler_step_inv (s s' : handler) (e : handler_event) :
  handler_step s e = Some s' →
  match e with
  | Call i force now => requests s !! i = None ∧ s' = call i force now s
  | AcquireResumes i now =>
      ∃ r, requests s !! i = Some r ∧ at_stage r = Granted ∧
           s' = acquire_resumes i r now s
  | FetchSettles i result =>
      ∃ r, requests s !! i = Some r ∧ at_stage r = Refreshing ∧
           s' = fetch_settles i r result s
  | RefreshResumes i =>
      ∃ r data, requests s !! i = Some r ∧ at_stage r = Stored data ∧
                s' = refresh_resumes i r data s
  end.
Proof.
  destruct e as [i force now|i now|i result|i]; simpl;
    destruct (requests s !! i) as [r|]; try discriminate;
    try (destruct (at_stage r) eqn:Hst; try discriminate);
    intros [= <-]; eauto.
Qed.

Ltac holds_at Hst := rewrite Hst; reflexivity.

Lemma handler_step_lock_inv (s s' : handler) (e : handler_event) :
  lock_inv (semaphore s) (requests s) → handler_step s e = Some s' →
  lock_inv (semaphore s') (requests s').
Proof.
  intros Hinv Hstep. apply handler_step_inv in Hstep.
  destruct e as [i force now|i now|i result|i].
  - destruct Hstep as (Hi & ->). unfold call.
    destruct (negb force && valid (cachedAccessToken s) now); simpl.
    + apply lock_inv_bystander; auto.
    + pose proof (lock_inv_acquire _ _ i force fresh_ctx Hinv Hi) as H.
      destruct (acquire i (semaphore s)) as [sm how]. exact H.
  - destruct Hstep as (r & Hi & Hst & ->). unfold acquire_resumes.
    destruct (negb (isForce r) && valid (cachedAccessToken s) now).
    + match goal with |- context [release i ?s2] =>
        destruct (release_lock i s2) as (-> & -> & _) end. simpl.
      eapply lock_inv_release; eauto. holds_at Hst.
    + simpl. eapply lock_inv_restage; eauto. holds_at Hst.
  - destruct Hstep as (r & Hi & Hst & ->). unfold fetch_settles.
    destruct result as [data|message].
    + simpl. eapply lock_inv_restage; eauto. holds_at Hst.
    + match goal with |- context [release i ?s2] =>
        destruct (release_lock i s2) as (-> & -> & _) end. simpl.
      eapply lock_inv_release; eauto. holds_at Hst.
  - destruct Hstep as (r & data & Hi & Hst & ->). unfold refresh_resumes.
    match goal with |- context [release i ?s2] =>
      destruct (release_lock i s2) as (-> & -> & _) end. simpl.
    eapply lock_inv_release; eauto. holds_at Hst.
Qed.

Lemma handler_run_lock_inv (events : list handler_event) (s s' : handler) :
  lock_inv (semaphore s) (requests s) → handler_run s events = Some s' →
  lock_inv (semaphore s') (requests s').
Proof.
  revert s. induction events as [|e events IH]; intros s Hinv; simpl.
  - intros [= <-]. exact Hinv.
  - destruct (handler_step s e) as [s1|] eqn:He; [|discriminate].
    apply IH. eapply handler_step_lock_inv; eassumption.
Qed.

(** C8: in every state the handler reaches, the lock is marked locked
    exactly when some request holds it, waiters are queued only while it
    is locked, and no two requests hold it; every step of [acquire()] and
    [release()] keeps this. *)
Theorem mutex_invariant (cached : option SpotifyToken) (events : list handler_event) (s : handler) :
  handler_run (new_handler cached) events = Some s →
  (_locked (semaphore s) = true ↔ ∃ i, holder s i) ∧
  (_waiters (semaphore s) ≠ [] → _locked (semaphore s) = true) ∧
  (∀ i j, holder s i → holder s j → i = j) ∧
  (∀ e s', handler_step s e = Some s' →
     (_locked (semaphore s') = true ↔ ∃ i, holder s' i) ∧
     (_waiters (semaphore s') ≠ [] → _locked (semaphore s') = true)).
Proof.
  intros Hrun.
  assert (Hinv : lock_inv (semaphore s) (requests s)).
  { eapply handler_run_lock_inv; [|exact Hrun]. apply lock_inv_new. }
  assert (Hgoal : ∀ t, lock_inv (semaphore t) (requests t) →
    (_locked (semaphore t) = true ↔ ∃ i, holder t i) ∧
    (_waiters (semaphore t) ≠ [] → _locked (semaphore t) = true) ∧
    (∀ i j, holder t i → holder t j → i = j)).
  { intros t [Hl Hs Hq Hn Hw]. split; [|split].
    - rewrite Hl. unfold holder. split.
      + intros (i & r & H). eauto.
      + intros (i & r & H). eauto.
    - exact Hw.
    - intros i j (ri & Hi & Hhi) (rj & Hj & Hhj). eauto. }
  destruct (Hgoal s Hinv) as (H1 & H2 & H3).
  repeat split; try apply H1; try assumption.
  - apply (Hgoal s'). eapply handler_step_lock_inv; eassumption.
  - apply (Hgoal s'). eapply handler_step_lock_inv; eassumption.
  - apply (Hgoal s'). eapply handler_step_lock_inv; eassumption.
Qed.

(** A run with a holder and a waiter, to which the theorem applies. *)
Lemma mutex_invariant_witness :
  ∃ s,
    handler_run (new_handler None)
      [Call 0 false 0; Call 1 true 0; AcquireResumes 0 0] = Some s ∧
    _waiters (semaphore s) = [1] ∧
    ((_locked (semaphore s) = true ↔ ∃ i, holder s i) ∧
     (_waiters (semaphore s) ≠ [] → _locked (semaphore s) = true) ∧
     (∀ i j, holder s i → holder s j → i = j) ∧
     (∀ e s', handler_step s e = Some s' →
        (_locked (semaphore s') = true ↔ ∃ i, holder s' i) ∧
        (_waiters (semaphore s') ≠ [] → _locked (semaphore s') = true))).
Proof.
  eexists. split; [vm_compute; reflexivity|]. split; [reflexivity|].
  apply (mutex_invariant None [Call 0 false 0; Call 1 true 0; AcquireResumes 0 0]).
  vm_compute. reflexivity.
Defined.

(** ** Requests sharing one refresh *)

Section SteadyRun.

Variable cached : option SpotifyToken.
Variable tok : SpotifyToken.

Lemma stage_in_grant (p : phase) (r : request) :
  stage_in p tok r → stage_in p tok (grant r).
Proof.
  unfold grant. destruct (at_stage r) eqn:Hst; auto.
  intros (Hf & Hc & _). repeat split; assumption.
Qed.

Lemma stage_in_release (p : phase) (i : nat) (s : handler) :
  (∀ j r, requests s !! j = Some r → stage_in p tok r) →
  ∀ j r, requests (release i s) !! j = Some r → stage_in p tok r.
Proof.
  intros Hall j r. destruct (release_lock i s) as (_ & -> & _).
  destruct (_release (semaphore s)).2 as [w|]; [|apply Hall].
  rewrite lookup_alter_Some. intros [[_ (x & Hx & ->)]|[_ Hj]]; [|eauto].
  apply stage_in_grant. eauto.
Qed.

Lemma stage_in_put (p : phase) (i : nat) (r : request) (rs : gmap nat request) :
  (∀ j rj, i ≠ j → rs !! j = Some rj → stage_in p tok rj) → stage_in p tok r →
  ∀ j rj, <[i := r]> rs !! j = Some rj → stage_in p tok rj.
Proof.
  intros Hall Hr j rj. rewrite lookup_insert_Some. intros [[_ <-]|[Hne Hj]]; eauto.
Qed.

Lemma fetches_release (i : nat) (s : handler) : fetches (release i s) = fetches s.
Proof. unfold fetches. destruct (release_lock i s) as (_ & _ & _ & ->). reflexivity. Qed.

Lemma cached_release (i : nat) (s : handler) :
  cachedAccessToken (release i s) = cachedAccessToken s.
Proof. apply release_lock. Qed.

(** A call: it queues before the token is cached and returns it after. *)
Lemma flight_inv_call (s : handler) (i : nat) (force : bool) (now : Z) :
  flight_inv cached tok s → steady cached tok (Call i force now) →
  requests s !! i = None → flight_inv cached tok (call i force now s).
Proof.
  intros (p & Hall & Hp) (-> & Hold & Hnew) Hi. unfold call. simpl.
  assert (Hothers : ∀ j rj, i ≠ j → requests s !! j = Some rj → stage_in p tok rj)
    by (intros ? ? _; apply Hall).
  destruct p.
  - destruct Hp as (Hf & Hc). rewrite Hc, Hold.
    destruct (acquire i (semaphore s)) as [sm how]. exists Idle. simpl.
    split; [|rewrite <- Hc; auto].
    apply stage_in_put; [exact Hothers|]. destruct how; repeat split.
  - destruct Hp as (Hf & Hc & j & rj & Hj & Hst). rewrite Hc, Hold.
    destruct (acquire i (semaphore s)) as [sm how]. exists InFlight. simpl.
    split; [apply stage_in_put; [exact Hothers|]; destruct how; repeat split|].
    split; [exact Hf|]. split; [reflexivity|].
    exists j, rj. split; [|exact Hst]. rewrite lookup_insert_ne; [exact Hj|congruence].
  - destruct Hp as (Hf & Hc). rewrite Hc, Hnew. exists Refreshed. simpl.
    split; [|rewrite <- Hc; auto].
    apply stage_in_put; [exact Hothers|]. repeat split.
Qed.

(** The holder passes the double check: it starts the one fetch, or
    finds the fetched token and returns it. *)
Lemma flight_inv_acquire_resumes (s : handler) (i : nat) (r : request) (now : Z) :
  lock_inv (semaphore s) (requests s) → flight_inv cached tok s →
  steady cached tok (AcquireResumes i now) →
  requests s !! i = Some r → at_stage r = Granted →
  flight_inv cached tok (acquire_resumes i r now s).
Proof.
  intros Hlock (p & Hall & Hp) (Hold & Hnew) Hi Hst.
  destruct (Hall _ _ Hi) as (Hforce & Hstatus & _).
  unfold acquire_resumes. rewrite Hforce. simpl.
  destruct p.
  - destruct Hp as (Hf & Hc). rewrite Hc, Hold. exists InFlight. simpl.
    split; [|split; [|split]].
    + apply stage_in_put; [|repeat split; assumption].
      intros j rj _ Hj. destruct (Hall _ _ Hj) as (? & ? & Hs).
      repeat split; try assumption. destruct (at_stage rj); auto.
    + unfold fetches in *. simpl. rewrite Hf. reflexivity.
    + exact Hc.
    + eexists i, _. rewrite lookup_insert_eq. split; reflexivity.
  - destruct Hp as (Hf & Hc & j & rj & Hj & Hstj). exfalso.
    assert (i = j)
      by (eapply (inv_single _ _ Hlock); eauto; [holds_at Hst | holds_at Hstj]).
    subst j. rewrite Hi in Hj. injection Hj as <-. congruence.
  - destruct Hp as (Hf & Hc). rewrite Hc, Hnew. exists Refreshed.
    rewrite fetches_release, cached_release. simpl.
    split; [|auto].
    apply stage_in_release. simpl.
    apply stage_in_put; [intros ? ? _; apply Hall|].
    repeat split; assumption.
Qed.

(** The fetch resolves: its token is cached, and nobody else is
    fetching, the fetching request being the holder. *)
Lemma flight_inv_fetch_settles (s : handler) (i : nat) (r : request) :
  lock_inv (semaphore s) (requests s) → flight_inv cached tok s →
  requests s !! i = Some r → at_stage r = Refreshing →
  flight_inv cached tok (fetch_settles i r (Resolve tok) s).
Proof.
  intros Hlock (p & Hall & Hp) Hi Hst. unfold fetch_settles.
  destruct (Hall _ _ Hi) as (Hforce & Hstatus & Hs). rewrite Hst in Hs.
  destruct p; try contradiction.
  destruct Hp as (Hf & Hc & _). exists Refreshed. simpl.
  split; [|auto].
  apply stage_in_put; [|repeat split; assumption].
  intros j rj Hne Hj. destruct (Hall _ _ Hj) as (? & ? & Hsj).
  repeat split; try assumption.
  destruct (at_stage rj) eqn:Hstj; auto; try contradiction.
  contradiction Hne.
  eapply (inv_single _ _ Hlock); eauto; [holds_at Hst | holds_at Hstj].
Qed.

(** The request that fetched returns the token and releases the lock. *)
Lemma flight_inv_refresh_resumes (s : handler) (i : nat) (r : request) (data : SpotifyToken) :
  flight_inv cached tok s →
  requests s !! i = Some r → at_stage r = Stored data →
  flight_inv cached tok (refresh_resumes i r data s).
Proof.
  intros (p & Hall & Hp) Hi Hst. unfold refresh_resumes.
  destruct (Hall _ _ Hi) as (Hforce & Hstatus & Hs). rewrite Hst in Hs.
  destruct p; try contradiction. subst data.
  destruct Hp as (Hf & Hc). exists Refreshed.
  rewrite fetches_release, cached_release. simpl.
  split; [|auto].
  apply stage_in_release. simpl.
  apply stage_in_put; [intros ? ? _; apply Hall|].
  repeat split; assumption.
Qed.

Lemma flight_inv_step (s s' : handler) (e : handler_event) :
  lock_inv (semaphore s) (requests s) → flight_inv cached tok s → steady cached tok e →
  handler_step s e = Some s' → flight_inv cached tok s'.
Proof.
  intros Hlock Hinv He Hstep. apply handler_step_inv in Hstep.
  destruct e as [i force now|i now|i result|i].
  - destruct Hstep as (Hi & ->). apply flight_inv_call; assumption.
  - destruct Hstep as (r & Hi & Hst & ->).
    apply flight_inv_acquire_resumes; assumption.
  - destruct Hstep as (r & Hi & Hst & ->). simpl in He. subst result.
    apply flight_inv_fetch_settles; assumption.
  - destruct Hstep as (r & data & Hi & Hst & ->).
    apply flight_inv_refresh_resumes; assumption.
Qed.

Lemma flight_inv_run (events : list handler_event) (s s' : handler) :
  lock_inv (semaphore s) (requests s) → flight_inv cached tok s →
  Forall (steady cached tok) events →
  handler_run s events = Some s' → flight_inv cached tok s'.
Proof.
  revert s. induction events as [|e events IH]; intros s Hlock Hinv Hev; simpl.
  - intros [= <-]. exact Hinv.
  - destruct (handler_step s e) as [s1|] eqn:He; [|discriminate].
    apply Forall_cons in Hev as [He1 Hev].
    apply IH; [| |exact Hev].
    + eapply handler_step_lock_inv; eassumption.
    + eapply flight_inv_step; eassumption.
Qed.

Lemma flight_inv_start : flight_inv cached tok (new_handler cached).
Proof.
  exists Idle. split; [|split; reflexivity].
  intros i r H. simpl in H. rewrite lookup_empty in H. discriminate.
Qed.

End SteadyRun.

(** Whoever holds the lock can take its next step, so a request that
    has not returned is never stuck behind a lock nobody will release. *)
Lemma holder_can_step (s : handler) (j : nat) (r : request) (now : Z) (result : settle_call) :
  requests s !! j = Some r → holds (at_stage r) = true →
  ∃ e s', handler_step s e = Some s' ∧
    (e = AcquireResumes j now ∨ e = FetchSettles j result ∨ e = RefreshResumes j).
Proof.
  intros Hj Hh. destruct (at_stage r) eqn:Hst; try discriminate.
  - exists (AcquireResumes j now). eexists. simpl. rewrite Hj, Hst. auto.
  - exists (FetchSettles j result). eexists. simpl. rewrite Hj, Hst. auto.
  - exists (RefreshResumes j). eexists. simpl. rewrite Hj, Hst. auto.
Qed.

Lemma handler_progress (s : handler) (i : nat) (r : request) (now : Z) (result : settle_call) :
  lock_inv (semaphore s) (requests s) →
  requests s !! i = Some r → at_stage r ≠ Returned →
  ∃ j e s', handler_step s e = Some s' ∧
    (e = AcquireResumes j now ∨ e = FetchSettles j result ∨ e = RefreshResumes j).
Proof.
  intros [Hl Hs Hq Hn Hw] Hi Hst.
  assert (Hholder : ∃ j rj, requests s !! j = Some rj ∧ holds (at_stage rj) = true).
  { destruct (holds (at_stage r)) eqn:Hh; [eauto|].
    apply Hl, Hw. intros Hnil.
    assert (Hin : i ∈ _waiters (semaphore s)).
    { apply Hq. exists r. split; [exact Hi|].
      destruct (at_stage r); try discriminate; [reflexivity | contradiction]. }
    rewrite Hnil in Hin. inversion Hin. }
  destruct Hholder as (j & rj & Hj & Hh). exists j.
  eapply holder_can_step; eassumption.
Qed.

(** C1, as stated, fails: two calls arrive while the cache is empty.
    The fetch of the first fails; the second, resumed by the release of
    the first, finds the cache still empty and fetches again.  The
    fetcher ran twice, and the two calls end differently. *)
Lemma failed_fetch_is_repeated :
  ∃ s,
    handler_run (new_handler None)
      [Call 0 false 0; Call 1 false 0; AcquireResumes 0 0;
       FetchSettles 0 (Reject "Token fetch exceeded deadline");
       AcquireResumes 1 0; FetchSettles 1 (Resolve sample_token);
       RefreshResumes 1] = Some s ∧
    fetches s = 2 ∧
    ctx <$> requests s !! 0 = Some {| ctx_status := Some 500%Z; ctx_body := BodyEmpty |} ∧
    ctx <$> requests s !! 1 =
      Some {| ctx_status := None; ctx_body := BodyToken sample_token |}.
Proof.
  eexists. split; [vm_compute; reflexivity|].
  split; [|split]; vm_compute; reflexivity.
Qed.

(** C1, amended: in every interleaving of unforced calls in which each
    fetch that is made resolves with a token [tok], and in which at every
    validity check the token cached at the start is not valid and [tok]
    is, the fetcher is invoked at most once; every call that has returned
    returned [tok], and the fetcher was then invoked exactly once; and as
    long as some call has not returned, the holder of the lock can take
    its next step. *)
Theorem single_flight (cached : option SpotifyToken) (tok : SpotifyToken)
    (events : list handler_event) (s : handler) :
  handler_run (new_handler cached) events = Some s →
  Forall (steady cached tok) events →
  fetches s ≤ 1 ∧
  (∀ i r, requests s !! i = Some r → at_stage r = Returned →
     ctx r = {| ctx_status := None; ctx_body := BodyToken tok |} ∧ fetches s = 1) ∧
  (∀ i r now, requests s !! i = Some r → at_stage r ≠ Returned →
     ∃ j e s', handler_step s e = Some s' ∧
       (e = AcquireResumes j now ∨ e = FetchSettles j (Resolve tok) ∨
        e = RefreshResumes j)).
Proof.
  intros Hrun Hsteady.
  assert (Hlock : lock_inv (semaphore s) (requests s)).
  { eapply handler_run_lock_inv; [|exact Hrun]. apply lock_inv_new. }
  assert (Hinv : flight_inv cached tok s).
  { eapply flight_inv_run; [| |exact Hsteady|exact Hrun].
    - apply lock_inv_new.
    - apply flight_inv_start. }
  destruct Hinv as (p & Hall & Hp). split; [|split].
  - destruct p; [destruct Hp as (-> & _)|destruct Hp as (-> & _)|destruct Hp as (-> & _)]; lia.
  - intros i r Hi Hst. destruct (Hall _ _ Hi) as (_ & Hstatus & Hs).
    rewrite Hst in Hs. destruct p; try contradiction.
    split; [|apply Hp]. destruct (ctx r) as [st b]. simpl in *. congruence.
  - intros i r now Hi Hst. eapply handler_progress; eassumption.
Qed.

(** Three calls on an empty cache, sharing one fetch. *)
Lemma single_flight_witness :
  ∃ s,
    handler_run (new_handler None)
      [Call 0 false 0; Call 1 false 0; Call 2 false 0; AcquireResumes 0 0;
       FetchSettles 0 (Resolve sample_token); RefreshResumes 0;
       AcquireResumes 1 0; AcquireResumes 2 0] = Some s ∧
    at_stage <$> requests s !! 2 = Some Returned ∧
    (fetches s ≤ 1 ∧
     (∀ i r, requests s !! i = Some r → at_stage r = Returned →
        ctx r = {| ctx_status := None; ctx_body := BodyToken sample_token |} ∧
        fetches s = 1) ∧
     (∀ i r now, requests s !! i = Some r → at_stage r ≠ Returned →
        ∃ j e s', handler_step s e = Some s' ∧
          (e = AcquireResumes j now ∨ e = FetchSettles j (Resolve sample_token) ∨
           e = RefreshResumes j))).
Proof.
  eexists. split; [vm_compute; reflexivity|]. split; [vm_compute; reflexivity|].
  apply (single_flight None sample_token
           [Call 0 false 0; Call 1 false 0; Call 2 false 0; AcquireResumes 0 0;
            FetchSettles 0 (Resolve sample_token); RefreshResumes 0;
            AcquireResumes 1 0; AcquireResumes 2 0]).
  - vm_compute. reflexivity.
  - repeat constructor.
Defined.

(** ** Single calls of the handler *)

(** C4: when the cache holds a token with more than 10000 ms left, an
    unforced call returns that token in its first run: the semaphore is
    untouched and there is no effect, so neither [acquire()] nor the
    fetcher is called. *)
Theorem fast_path (s : handler) (i : nat) (now : Z) (c : SpotifyToken) :
  cachedAccessToken s = Some c →
  (accessTokenExpirationTimestampMs c - now > 10000)%Z →
  requests s !! i = None →
  ∃ s',
    handler_step s (Call i false now) = Some s' ∧
    requests s' !! i =
      Some {| isForce := false; at_stage := Returned;
              ctx := {| ctx_status := None; ctx_body := BodyToken c |} |} ∧
    semaphore s' = semaphore s ∧
    effects s' = effects s ∧
    cachedAccessToken s' = Some c.
Proof.
  intros Hc Hleft Hi.
  assert (Hv : valid (Some c) now = true) by (apply valid_spec; lia).
  eexists. simpl. rewrite Hi. split; [reflexivity|].
  unfold call. rewrite Hc, Hv. simpl.
  rewrite lookup_insert_eq. auto.
Qed.

(** A token with 1000 s left, served to a new call. *)
Lemma fast_path_witness :
  ∃ s',
    handler_step (new_handler (Some sample_token)) (Call 7 false 1699999000000) = Some s' ∧
    requests s' !! 7 =
      Some {| isForce := false; at_stage := Returned;
              ctx := {| ctx_status := None; ctx_body := BodyToken sample_token |} |} ∧
    semaphore s' = semaphore (new_handler (Some sample_token)) ∧
    effects s' = effects (new_handler (Some sample_token)) ∧
    cachedAccessToken s' = Some sample_token.
Proof.
  apply (fast_path (new_handler (Some sample_token)) 7 1699999000000 sample_token).
  - reflexivity.
  - vm_compute. reflexivity.
  - reflexivity.
Defined.

(** The two runs that lead a call to the fetcher when the cached token
    is not valid. *)
Lemma invalid_call_acquires (s : handler) (i : nat) (force : bool) (now : Z) :
  valid (cachedAccessToken s) now = false → requests s !! i = None →
  ∃ s' r,
    handler_step s (Call i force now) = Some s' ∧
    effects s' = Acquire i :: effects s ∧
    requests s' !! i = Some r ∧
    (at_stage r = Granted ∨ at_stage r = Queued) ∧
    ctx r = fresh_ctx.
Proof.
  intros Hv Hi. simpl. rewrite Hi. unfold call. rewrite Hv, andb_false_r.
  unfold acquire. destruct (_locked (semaphore s));
    do 2 eexists; (split; [reflexivity|]); simpl; rewrite lookup_insert_eq; auto.
Qed.

Lemma invalid_resume_fetches (s : handler) (i : nat) (r : request) (now : Z) :
  valid (cachedAccessToken s) now = false →
  requests s !! i = Some r → at_stage r = Granted →
  ∃ s',
    handler_step s (AcquireResumes i now) = Some s' ∧
    effects s' = Fetch i :: effects s ∧
    fetches s' = S (fetches s) ∧
    requests s' !! i = Some (at_ Refreshing r).
Proof.
  intros Hv Hi Hst. simpl. rewrite Hi, Hst. unfold acquire_resumes.
  rewrite Hv, andb_false_r. eexists. split; [reflexivity|]. simpl.
  rewrite lookup_insert_eq. auto.
Qed.

(** C5: when a refresh fails, the cache slot stays as it was, and the
    caller gets the failure (status 500, empty body, the error logged)
    and not the cached token.  While the slot holds that token, not valid
    then and so not valid later, a later unforced call is not answered
    from the cache but goes to [acquire()], and, once it has the lock,
    invokes the fetcher again. *)
Theorem failed_refresh_not_stale (s s1 : handler) (i : nat) (message : string) (now0 : Z) :
  handler_step s (FetchSettles i (Reject message)) = Some s1 →
  valid (cachedAccessToken s) now0 = false →
  cachedAccessToken s1 = cachedAccessToken s ∧
  (∃ r, requests s1 !! i = Some r ∧ at_stage r = Returned ∧
        ctx r = {| ctx_status := Some 500%Z; ctx_body := BodyEmpty |}) ∧
  effects s1 = Release i :: LogError i message :: effects s ∧
  (∀ s2 j now,
     cachedAccessToken s2 = cachedAccessToken s → (now0 ≤ now)%Z →
     (requests s2 !! j = None →
      ∃ s3 r, handler_step s2 (Call j false now) = Some s3 ∧
              effects s3 = Acquire j :: effects s2 ∧
              requests s3 !! j = Some r ∧
              (at_stage r = Granted ∨ at_stage r = Queued) ∧ ctx r = fresh_ctx) ∧
     (∀ r, requests s2 !! j = Some r → at_stage r = Granted →
      ∃ s3, handler_step s2 (AcquireResumes j now) = Some s3 ∧
            effects s3 = Fetch j :: effects s2 ∧
            fetches s3 = S (fetches s2) ∧
            requests s3 !! j = Some (at_ Refreshing r))).
Proof.
  intros Hstep Hv.
  apply handler_step_inv in Hstep as (r & Hi & Hst & ->). unfold fetch_settles.
  match goal with |- context [release i ?s2] =>
    destruct (release_lock i s2) as (_ & Hreq & Hcache & Heff) end.
  split; [rewrite Hcache; reflexivity|]. split; [|split].
  - rewrite Hreq. simpl.
    assert (Hnew : ∀ w, alter grant w
        (<[i := at_ Returned (with_body BodyEmpty (with_status 500 r))]> (requests s)) !! i
        = Some (at_ Returned (with_body BodyEmpty (with_status 500 r)))).
    { intros w. rewrite lookup_alter. case_decide as Hw.
      - subst w. rewrite lookup_insert_eq. reflexivity.
      - apply lookup_insert_eq. }
    exists (at_ Returned (with_body BodyEmpty (with_status 500 r))).
    split; [|split; reflexivity].
    destruct (_release (semaphore s)).2; [apply Hnew | apply lookup_insert_eq].
  - rewrite Heff. reflexivity.
  - intros s2 j now Hc2 Hle.
    assert (Hv2 : valid (cachedAccessToken s2) now = false).
    { rewrite Hc2. eapply valid_false_later; eassumption. }
    split.
    + intros Hj. apply invalid_call_acquires; assumption.
    + intros r2 Hj Hst2. apply invalid_resume_fetches; assumption.
Qed.

(** An expired token in the slot, and a refresh that fails. *)
Lemma failed_refresh_not_stale_witness :
  ∃ s s1,
    handler_run (new_handler (Some expired_token))
      [Call 0 false 5000; AcquireResumes 0 5000] = Some s ∧
    handler_step s (FetchSettles 0 (Reject "Failed to launch browser")) = Some s1 ∧
    cachedAccessToken s1 = Some expired_token ∧
    (cachedAccessToken s1 = cachedAccessToken s ∧
     (∃ r, requests s1 !! 0 = Some r ∧ at_stage r = Returned ∧
           ctx r = {| ctx_status := Some 500%Z; ctx_body := BodyEmpty |}) ∧
     effects s1 = Release 0 :: LogError 0 "Failed to launch browser" :: effects s ∧
     (∀ s2 j now,
        cachedAccessToken s2 = cachedAccessToken s → (5000 ≤ now)%Z →
        (requests s2 !! j = None →
         ∃ s3 r, handler_step s2 (Call j false now) = Some s3 ∧
                 effects s3 = Acquire j :: effects s2 ∧
                 requests s3 !! j = Some r ∧
                 (at_stage r = Granted ∨ at_stage r = Queued) ∧ ctx r = fresh_ctx) ∧
        (∀ r, requests s2 !! j = Some r → at_stage r = Granted →
         ∃ s3, handler_step s2 (AcquireResumes j now) = Some s3 ∧
               effects s3 = Fetch j :: effects s2 ∧
               fetches s3 = S (fetches s2) ∧
               requests s3 !! j = Some (at_ Refreshing r)))).
Proof.
  do 2 eexists. split; [vm_compute; reflexivity|].
  split; [vm_compute; reflexivity|]. split; [reflexivity|].
  apply (failed_refresh_not_stale _ _ 0 "Failed to launch browser" 5000).
  - vm_compute. reflexivity.
  - vm_compute. reflexivity.
Defined.

(** C10: with an empty cache slot the validity check is false, whatever
    the time, and as a value of [valid], which has no failing case; so a
    call, forced or not, goes to [acquire()], and once it has the lock it
    invokes the fetcher. *)
Theorem empty_cache_refreshes (s : handler) (i : nat) (force : bool) (now : Z) :
  cachedAccessToken s = None →
  valid (cachedAccessToken s) now = false ∧
  (requests s !! i = None →
   ∃ s' r, handler_step s (Call i force now) = Some s' ∧
           effects s' = Acquire i :: effects s ∧
           requests s' !! i = Some r ∧
           (at_stage r = Granted ∨ at_stage r = Queued) ∧ ctx r = fresh_ctx) ∧
  (∀ r, requests s !! i = Some r → at_stage r = Granted →
   ∃ s', handler_step s (AcquireResumes i now) = Some s' ∧
         effects s' = Fetch i :: effects s ∧
         fetches s' = S (fetches s) ∧
         requests s' !! i = Some (at_ Refreshing r)).
Proof.
  intros Hc.
  assert (Hv : valid (cachedAccessToken s) now = false) by (rewrite Hc; reflexivity).
  split; [exact Hv|]. split.
  - intros Hi. apply invalid_call_acquires; assumption.
  - intros r Hi Hst. apply invalid_resume_fetches; assumption.
Qed.

(** A new handler, whose slot is empty. *)
Lemma empty_cache_refreshes_witness :
  valid (cachedAccessToken (new_handler None)) 42 = false ∧
  (requests (new_handler None) !! 3 = None →
   ∃ s' r, handler_step (new_handler None) (Call 3 false 42) = Some s' ∧
           effects s' = Acquire 3 :: effects (new_handler None) ∧
           requests s' !! 3 = Some r ∧
           (at_stage r = Granted ∨ at_stage r = Queued) ∧ ctx r = fresh_ctx) ∧
  (∀ r, requests (new_handler None) !! 3 = Some r → at_stage r = Granted →
   ∃ s', handler_step (new_handler None) (AcquireResumes 3 42) = Some s' ∧
         effects s' = Fetch 3 :: effects (new_handler None) ∧
         fetches s' = S (fetches (new_handler None)) ∧
         requests s' !! 3 = Some (at_ Refreshing r)).
Proof.
  apply (empty_cache_refreshes (new_handler None) 3 false 42).
  reflexivity.
Defined.

(** ** A burst of calls runs to completion *)

Lemma handler_run_app (l1 l2 : list handler_event) (s : handler) :
  handler_run s (l1 ++ l2) = handler_run s l1 ≫= fun s' => handler_run s' l2.
Proof.
  revert s. induction l1 as [|e l1 IH]; intros s; simpl; [reflexivity|].
  destruct (handler_step s e); [apply IH | reflexivity].
Qed.

Section Burst.

Variable cached : option SpotifyToken.
Variable tok : SpotifyToken.
Variable now : Z.
Hypothesis cached_invalid : valid cached now = false.
Hypothesis tok_valid : valid (Some tok) now = true.

(** The calls queue up behind the first. *)
Lemma calls_line_up (k : nat) :
  ∃ s,
    handler_run (new_handler cached) (map (fun i => Call i false now) (seq 0 (S k))) = Some s ∧
    lined_up tok Granted 0 k s ∧ cachedAccessToken s = cached ∧ fetches s = 0.
Proof.
  induction k as [|k (s & Hrun & (Hsem & H0 & Hlt & Hq & Hnone) & Hc & Hf)].
  - eexists. split; [reflexivity|]. unfold call. simpl. rewrite cached_invalid. simpl.
    split; [|split; reflexivity].
    split; [reflexivity|]. split; [reflexivity|]. simpl.
    split; [intros; lia|]. split; [intros; lia|].
    intros i Hi. rewrite lookup_insert_ne by lia. apply lookup_empty.
  - rewrite seq_S, map_app, handler_run_app, Hrun. simpl.
    rewrite Hnone by lia. eexists. split; [reflexivity|].
    unfold call. rewrite Hc, cached_invalid. simpl.
    unfold acquire. rewrite Hsem. simpl.
    split; [|split; [reflexivity | exact Hf]].
    split; [|split; [|split; [|split]]]; simpl.
    + rewrite Nat.sub_0_r. change (1 :: seq 2 k) with (seq 1 (S k)).
      rewrite seq_S. reflexivity.
    + rewrite lookup_insert_ne by lia. exact H0.
    + intros i Hi. lia.
    + intros i Hi. destruct (decide (i = S k)) as [->|Hne].
      * apply lookup_insert_eq.
      * rewrite lookup_insert_ne by lia. apply Hq. lia.
    + intros i Hi. rewrite lookup_insert_ne by lia. apply Hnone. lia.
Qed.

(** The holder returns [tok] and releases: the next in the row holds
    the lock, or, behind the last, the lock is free. *)
Lemma release_next (st : stage) (j k : nat) (s : handler) :
  lined_up tok st j k s → j ≤ k → cachedAccessToken s = Some tok →
  let s' := release j (put j (returned_request tok) s) in
  fetches s' = fetches s ∧ cachedAccessToken s' = Some tok ∧
  if decide (j = k) then all_returned tok k s' else lined_up tok Granted (S j) k s'.
Proof.
  intros (Hsem & Hj & Hlt & Hq & Hnone) Hle Hc. cbv zeta.
  split; [rewrite fetches_release; reflexivity|].
  split; [rewrite cached_release; exact Hc|].
  unfold release, _release. simpl. rewrite Hsem. simpl.
  destruct (decide (j = k)) as [->|Hne].
  - rewrite Nat.sub_diag. simpl. repeat split; [exact Hc|].
    intros i Hi. simpl. destruct (decide (i = k)) as [->|Hik].
    + apply lookup_insert_eq.
    + rewrite lookup_insert_ne by lia. apply Hlt. lia.
  - replace (k - j) with (S (k - S j)) by lia. simpl.
    repeat split; simpl.
    + rewrite lookup_alter_eq, lookup_insert_ne by lia.
      rewrite Hq by lia. reflexivity.
    + intros i Hi. rewrite lookup_alter_ne by lia.
      destruct (decide (i = j)) as [->|Hij].
      * apply lookup_insert_eq.
      * rewrite lookup_insert_ne by lia. apply Hlt. lia.
    + intros i Hi. rewrite lookup_alter_ne, lookup_insert_ne by lia. apply Hq. lia.
    + intros i Hi. rewrite lookup_alter_ne, lookup_insert_ne by lia. apply Hnone. lia.
Qed.

(** The first request fetches, caches and returns the token. *)
Lemma first_refreshes (k : nat) (s : handler) :
  lined_up tok Granted 0 k s → cachedAccessToken s = cached → fetches s = 0 →
  ∃ s',
    handler_run s [AcquireResumes 0 now; FetchSettles 0 (Resolve tok); RefreshResumes 0]
      = Some s' ∧
    fetches s' = 1 ∧ cachedAccessToken s' = Some tok ∧
    if decide (0 = k) then all_returned tok k s' else lined_up tok Granted 1 k s'.
Proof.
  intros (Hsem & H0 & Hlt & Hq & Hnone) Hc Hf.
  simpl. rewrite H0. simpl. unfold acquire_resumes. simpl.
  rewrite Hc, cached_invalid. simpl. rewrite lookup_insert_eq. simpl.
  rewrite lookup_insert_eq. simpl.
  eexists. split; [reflexivity|]. unfold refresh_resumes.
  match goal with |- context [release 0 (put 0 ?r ?s0)] =>
    change r with (returned_request tok);
    destruct (release_next (Stored tok) 0 k s0) as (Hf' & Hc' & Hshape)
  end.
  - repeat split; simpl.
    + exact Hsem.
    + rewrite lookup_insert_eq. reflexivity.
    + intros i Hi. lia.
    + intros i Hi. rewrite !lookup_insert_ne by lia. apply Hq. lia.
    + intros i Hi. rewrite !lookup_insert_ne by lia. apply Hnone. lia.
  - lia.
  - reflexivity.
  - split; [|split; [exact Hc' | exact Hshape]].
    rewrite Hf'. unfold fetches in *. simpl. rewrite Hf. reflexivity.
Qed.

(** The requests in the queue return the cached token one after the
    other. *)
Lemma queue_drains (m : nat) :
  ∀ j k s, k - j = m → j ≤ k →
    lined_up tok Granted j k s → cachedAccessToken s = Some tok →
    ∃ s',
      handler_run s (map (fun i => AcquireResumes i now) (seq j (S m))) = Some s' ∧
      fetches s' = fetches s ∧ all_returned tok k s'.
Proof.
  induction m as [|m IH]; intros j k s Hm Hle Hline Hc;
    pose proof Hline as (Hsem & Hj & Hlt & Hq & Hnone);
    destruct (release_next Granted j k s Hline Hle Hc) as (Hf' & Hc' & Hshape);
    cbn [seq map handler_run handler_step]; rewrite Hj; simpl;
    unfold acquire_resumes; simpl; rewrite Hc, tok_valid; simpl;
    change (at_ Returned (with_body (BodyToken tok) (waiting_request Granted)))
      with (returned_request tok).
  - destruct (decide (j = k)) as [_|Hne]; [|lia].
    eexists. split; [reflexivity|]. split; assumption.
  - destruct (decide (j = k)) as [->|Hne]; [lia|].
    destruct (IH (S j) k _ ltac:(lia) ltac:(lia) Hshape Hc') as (s' & Hrun & Hf & Hall).
    exists s'. split; [exact Hrun|]. split; [congruence | exact Hall].
Qed.

Lemma burst_completes (n : nat) :
  ∃ s,
    handler_run (new_handler cached) (burst n now tok) = Some s ∧
    fetches s = 1 ∧ all_returned tok n s.
Proof.
  unfold burst.
  destruct (calls_line_up n) as (s1 & Hrun1 & Hline & Hc & Hf).
  destruct (first_refreshes n s1 Hline Hc Hf) as (s2 & Hrun2 & Hf2 & Hc2 & Hshape).
  rewrite handler_run_app, Hrun1. cbn [mbind option_bind].
  rewrite handler_run_app, Hrun2. cbn [mbind option_bind].
  destruct (decide (0 = n)) as [<-|Hne].
  - exists s2. split; [reflexivity|]. split; assumption.
  - destruct n as [|n]; [lia|].
    destruct (queue_drains n 1 (S n) s2 ltac:(lia) ltac:(lia) Hshape Hc2)
      as (s3 & Hrun3 & Hf3 & Hall).
    exists s3. split; [exact Hrun3|]. split; [congruence | exact Hall].
Qed.

End Burst.

(* ===================================================================== *)
(** * Further properties of the code                                       *)
(* ===================================================================== *)

(** ** The [force] parameter *)








(** ** What each request does on its way through [handler0] *)

Lemma valid_some (data : option SpotifyToken) (now : Z) :
  valid data now = true → ∃ d, data = Some d ∧ valid (Some d) now = true.
Proof. destruct data as [d|]; [eauto | discriminate]. Qed.

Lemma tally_others (i j : nat) (l : list effect) (s s' : handler) :
  effects s' = l ++ effects s → Forall (fun e => made_by e = i) l → j ≠ i →
  tally j s' = tally j s.
Proof.
  intros Heff Hl Hne. unfold tally. rewrite Heff. clear Heff.
  induction Hl as [|e l He Hl IH]; [reflexivity|].
  assert (Hji : (j =? i) = false) by (apply Nat.eqb_neq; exact Hne).
  destruct e; simpl in He; subst; simpl; rewrite Hji; simpl; exact IH.
Qed.

Lemma request_ok_tally (s s' : handler) (j : nat) (r : request) :
  tally j s' = tally j s → request_ok s j r → request_ok s' j r.
Proof. unfold request_ok. intros ->. auto. Qed.

Lemma request_ok_grant (s : handler) (j : nat) (r : request) :
  request_ok s j r → request_ok s j (grant r).
Proof.
  unfold grant. destruct (at_stage r) eqn:Hst; auto.
  unfold request_ok. rewrite Hst. simpl. auto.
Qed.

Lemma release_lookup (i j : nat) (s : handler) :
  requests (release i s) !! j = requests s !! j ∨
  requests (release i s) !! j = grant <$> requests s !! j.
Proof.
  destruct (release_lock i s) as (_ & -> & _).
  destruct (_release (semaphore s)).2 as [w|]; [|auto].
  rewrite lookup_alter. case_decide; [subst; auto | auto].
Qed.

(** A step of request [i] leaves the account of the others as it was. *)
Lemma accounted_others (s s' : handler) (i : nat) (l : list effect) :
  accounted s →
  effects s' = l ++ effects s → Forall (fun e => made_by e = i) l →
  (∀ j, j ≠ i → requests s' !! j = requests s !! j ∨
                requests s' !! j = grant <$> requests s !! j) →
  (∃ r, requests s' !! i = Some r ∧ request_ok s' i r) →
  accounted s'.
Proof.
  intros Hacc Heff Hl Hreq (r & Hi & Hok) j.
  destruct (decide (j = i)) as [->|Hne]; [rewrite Hi; exact Hok|].
  pose proof (tally_others i j l s s' Heff Hl Hne) as Ht.
  specialize (Hacc j).
  destruct (Hreq j Hne) as [-> | ->]; destruct (requests s !! j) as [rj|]; simpl.
  - eapply request_ok_tally; eassumption.
  - congruence.
  - apply request_ok_grant. eapply request_ok_tally; eassumption.
  - congruence.
Qed.

Lemma tally_eq (i : nat) (s : handler) (a b c d : nat) :
  tally i s = (a, b, c, d) →
  count (acquire_by i) (effects s) = a ∧ count (release_by i) (effects s) = b ∧
  count (fetch_by i) (effects s) = c ∧ count (error_by i) (effects s) = d.
Proof. unfold tally. intros [= -> -> -> ->]. auto. Qed.

Ltac tally_now Ht :=
  apply tally_eq in Ht as (? & ? & ? & ?);
  unfold tally; simpl; rewrite ?Nat.eqb_refl; simpl; congruence.

Lemma accounted_put (s s' : handler) (i : nat) (r' : request) (l : list effect) :
  accounted s →
  requests s' = <[i := r']> (requests s) →
  effects s' = l ++ effects s → Forall (fun e => made_by e = i) l →
  request_ok s' i r' →
  accounted s'.
Proof.
  intros Hacc Hreq Heff Hl Hok.
  apply (accounted_others s s' i l Hacc Heff Hl).
  - intros j Hne. left. rewrite Hreq. apply lookup_insert_ne. congruence.
  - exists r'. split; [|exact Hok]. rewrite Hreq. apply lookup_insert_eq.
Qed.

Lemma accounted_release (s s0 : handler) (i : nat) (r' : request) (l : list effect) :
  accounted s →
  requests s0 = requests s →
  effects s0 = l ++ effects s → Forall (fun e => made_by e = i) l →
  at_stage r' = Returned →
  request_ok (release i (put i r' s0)) i r' →
  accounted (release i (put i r' s0)).
Proof.
  intros Hacc Hreq Heff Hl Hst Hok.
  destruct (release_lock i (put i r' s0)) as (_ & _ & _ & Heff').
  apply (accounted_others s _ i (Release i :: l) Hacc).
  - rewrite Heff'. simpl. rewrite Heff. reflexivity.
  - constructor; [reflexivity | exact Hl].
  - intros j Hne.
    destruct (release_lookup i j (put i r' s0)) as [H|H]; rewrite H; simpl;
      rewrite Hreq, lookup_insert_ne by congruence; auto.
  - exists r'. split; [|exact Hok].
    destruct (release_lookup i i (put i r' s0)) as [H|H]; rewrite H; simpl;
      rewrite lookup_insert_eq; [reflexivity|].
    simpl. unfold grant. rewrite Hst. reflexivity.
Qed.

Lemma accounted_step (s s' : handler) (e : handler_event) :
  accounted s → handler_step s e = Some s' → accounted s'.
Proof.
  intros Hacc Hstep. apply handler_step_inv in Hstep.
  destruct e as [i force now|i now|i result|i].
  - destruct Hstep as (Hi & ->). pose proof (Hacc i) as Ht. rewrite Hi in Ht.
    unfold call.
    destruct (negb force && valid (cachedAccessToken s) now) eqn:Hfast.
    + apply andb_true_iff in Hfast as [Hforce Hvalid].
      apply negb_true_iff in Hforce as ->.
      apply valid_some in Hvalid as (d & Hd & _).
      eapply (accounted_put s _ i _ []); [exact Hacc|reflexivity|reflexivity|constructor|].
      unfold request_ok. simpl. left. rewrite Hd. split; [exact Ht|]. eauto.
    + destruct (acquire i (semaphore s)) as [sm how].
      eapply (accounted_put s _ i _ [Acquire i]);
        [exact Hacc|reflexivity|reflexivity|repeat constructor|].
      unfold request_ok. destruct how; simpl; (split; [tally_now Ht | reflexivity]).
  - destruct Hstep as (r & Hi & Hst & ->). pose proof (Hacc i) as Hok. rewrite Hi in Hok.
    unfold request_ok in Hok. rewrite Hst in Hok. destruct Hok as (Ht & Hctx).
    unfold acquire_resumes.
    destruct (negb (isForce r) && valid (cachedAccessToken s) now) eqn:Hhit.
    + apply andb_true_iff in Hhit as [Hforce Hvalid].
      apply negb_true_iff in Hforce.
      apply valid_some in Hvalid as (d & Hd & _).
      apply (accounted_release s s i _ []); [exact Hacc|reflexivity|reflexivity|constructor|reflexivity|].
      unfold request_ok. simpl. right. left.
      match goal with |- context [release i ?x] =>
        destruct (release_lock i x) as (_ & _ & _ & Heff) end.
      split; [|split; [exact Hforce|]].
      * apply tally_eq in Ht as (? & ? & ? & ?).
        unfold tally. rewrite Heff. simpl. rewrite ?Nat.eqb_refl. simpl. congruence.
      * exists d. rewrite Hd, Hctx. reflexivity.
    + eapply (accounted_put s _ i _ [Fetch i]);
        [exact Hacc|reflexivity|reflexivity|repeat constructor|].
      unfold request_ok. simpl. split; [tally_now Ht | exact Hctx].
  - destruct Hstep as (r & Hi & Hst & ->). pose proof (Hacc i) as Hok. rewrite Hi in Hok.
    unfold request_ok in Hok. rewrite Hst in Hok. destruct Hok as (Ht & Hctx).
    unfold fetch_settles. destruct result as [data|message].
    + eapply (accounted_put s _ i _ []);
        [exact Hacc|reflexivity|reflexivity|constructor|].
      unfold request_ok. simpl. split; [exact Ht | exact Hctx].
    + apply (accounted_release s _ i _ [LogError i message]);
        [exact Hacc|reflexivity|reflexivity|repeat constructor|reflexivity|].
      unfold request_ok. simpl. right. right. right.
      match goal with |- context [release i ?x] =>
        destruct (release_lock i x) as (_ & _ & _ & Heff) end.
      split; [|reflexivity].
      apply tally_eq in Ht as (? & ? & ? & ?).
      unfold tally. rewrite Heff. simpl. rewrite ?Nat.eqb_refl. simpl. congruence.
  - destruct Hstep as (r & data & Hi & Hst & ->). pose proof (Hacc i) as Hok. rewrite Hi in Hok.
    unfold request_ok in Hok. rewrite Hst in Hok. destruct Hok as (Ht & Hctx).
    unfold refresh_resumes.
    apply (accounted_release s s i _ []); [exact Hacc|reflexivity|reflexivity|constructor|reflexivity|].
    unfold request_ok. simpl. right. right. left.
    match goal with |- context [release i ?x] =>
      destruct (release_lock i x) as (_ & _ & _ & Heff) end.
    split; [|exists data; rewrite Hctx; reflexivity].
    apply tally_eq in Ht as (? & ? & ? & ?).
    unfold tally. rewrite Heff. simpl. rewrite ?Nat.eqb_refl. simpl. congruence.
Qed.

Lemma accounted_run (events : list handler_event) (s s' : handler) :
  accounted s → handler_run s events = Some s' → accounted s'.
Proof.
  revert s. induction events as [|e events IH]; intros s Hacc; simpl.
  - intros [= <-]. exact Hacc.
  - destruct (handler_step s e) as [s1|] eqn:He; [|discriminate].
    apply IH. eapply accounted_step; eassumption.
Qed.

Lemma accounted_new (cached : option SpotifyToken) : accounted (new_handler cached).
Proof. intros i. simpl. rewrite lookup_empty. reflexivity. Qed.

Lemma reachable_accounted (cached : option SpotifyToken) (events : list handler_event)
    (s : handler) (i : nat) (r : request) :
  handler_run (new_handler cached) events = Some s → requests s !! i = Some r →
  request_ok s i r.
Proof.
  intros Hrun Hi.
  pose proof (accounted_run events _ _ (accounted_new cached) Hrun i) as H.
  rewrite Hi in H. exact H.
Qed.

(** X2: each request invokes the fetcher at most once; a request still
    waiting for the lock has not invoked it; and a forced request that
    has returned invoked it exactly once, whatever the cache held. *)
Theorem one_fetch_per_request (cached : option SpotifyToken)
    (events : list handler_event) (s : handler) (i : nat) (r : request) :
  handler_run (new_handler cached) events = Some s → requests s !! i = Some r →
  count (fetch_by i) (effects s) ≤ 1 ∧
  (at_stage r = Queued ∨ at_stage r = Granted → count (fetch_by i) (effects s) = 0) ∧
  (at_stage r = Returned → isForce r = true → count (fetch_by i) (effects s) = 1).
Proof.
  intros Hrun Hi. pose proof (reachable_accounted _ _ _ _ _ Hrun Hi) as Hok.
  unfold request_ok in Hok.
  destruct (at_stage r) eqn:Hst;
    [destruct Hok as (Ht & _) | destruct Hok as (Ht & _) | destruct Hok as (Ht & _)
    | destruct Hok as (Ht & _)
    | destruct Hok as [(Ht & Hf & _)|[(Ht & Hf & _)|[(Ht & _)|(Ht & _)]]]];
    apply tally_eq in Ht as (Ha & Hr & Hfe & He); rewrite Hfe;
    (split; [lia|]); (split; [intros [?|?]; congruence|]);
    intros; congruence.
Qed.

(** A forced call on a valid cache, about to fetch. *)
Lemma one_fetch_per_request_witness :
  ∃ s r,
    handler_run (new_handler (Some sample_token))
      [Call 0 true 1699999000000; AcquireResumes 0 1699999000000;
       FetchSettles 0 (Resolve sample_token); RefreshResumes 0] = Some s ∧
    requests s !! 0 = Some r ∧ at_stage r = Returned ∧ isForce r = true ∧
    (count (fetch_by 0) (effects s) ≤ 1 ∧
     (at_stage r = Queued ∨ at_stage r = Granted → count (fetch_by 0) (effects s) = 0) ∧
     (at_stage r = Returned → isForce r = true → count (fetch_by 0) (effects s) = 1)).
Proof.
  do 2 eexists. split; [vm_compute; reflexivity|]. split; [vm_compute; reflexivity|].
  split; [reflexivity|]. split; [reflexivity|].
  apply (one_fetch_per_request (Some sample_token)
           [Call 0 true 1699999000000; AcquireResumes 0 1699999000000;
            FetchSettles 0 (Resolve sample_token); RefreshResumes 0]).
  - vm_compute. reflexivity.
  - vm_compute. reflexivity.
Defined.

(** X3: a request calls [acquire()] at most once, and [release()] only
    after it, exactly once, when it returns: as long as it has not
    returned it has acquired once and not released, and once it has
    returned it has released as often as it acquired. *)
Theorem release_matches_acquire (cached : option SpotifyToken)
    (events : list handler_event) (s : handler) (i : nat) (r : request) :
  handler_run (new_handler cached) events = Some s → requests s !! i = Some r →
  count (acquire_by i) (effects s) ≤ 1 ∧
  (at_stage r ≠ Returned →
     count (acquire_by i) (effects s) = 1 ∧ count (release_by i) (effects s) = 0) ∧
  (at_stage r = Returned →
     count (release_by i) (effects s) = count (acquire_by i) (effects s)).
Proof.
  intros Hrun Hi. pose proof (reachable_accounted _ _ _ _ _ Hrun Hi) as Hok.
  unfold request_ok in Hok.
  destruct (at_stage r) eqn:Hst;
    [destruct Hok as (Ht & _) | destruct Hok as (Ht & _) | destruct Hok as (Ht & _)
    | destruct Hok as (Ht & _)
    | destruct Hok as [(Ht & _)|[(Ht & _)|[(Ht & _)|(Ht & _)]]]];
    apply tally_eq in Ht as (Ha & Hr & Hfe & He); rewrite Ha, Hr;
    (split; [lia|]); (split; [intros ?; first [congruence | auto]|]);
    intros; congruence.
Qed.

(** A request whose fetch failed: it has released, and the next one waits. *)
Lemma release_matches_acquire_witness :
  ∃ s r,
    handler_run (new_handler None)
      [Call 0 false 0; Call 1 false 0; AcquireResumes 0 0;
       FetchSettles 0 (Reject "Token fetch exceeded deadline")] = Some s ∧
    requests s !! 0 = Some r ∧ at_stage r = Returned ∧
    count (release_by 0) (effects s) = 1 ∧
    (count (acquire_by 0) (effects s) ≤ 1 ∧
     (at_stage r ≠ Returned →
        count (acquire_by 0) (effects s) = 1 ∧ count (release_by 0) (effects s) = 0) ∧
     (at_stage r = Returned →
        count (release_by 0) (effects s) = count (acquire_by 0) (effects s))).
Proof.
  do 2 eexists. split; [vm_compute; reflexivity|]. split; [vm_compute; reflexivity|].
  split; [reflexivity|]. split; [reflexivity|].
  apply (release_matches_acquire None
           [Call 0 false 0; Call 1 false 0; AcquireResumes 0 0;
            FetchSettles 0 (Reject "Token fetch exceeded deadline")]).
  - vm_compute. reflexivity.
  - vm_compute. reflexivity.
Defined.

(** X4: a request that has returned answers either with a token and no
    status, having logged no error, or with status 500 and the empty
    body, and then its own fetch was rejected and logged; a request that
    has not returned has written nothing into its context. *)
Theorem response_shape (cached : option SpotifyToken)
    (events : list handler_event) (s : handler) (i : nat) (r : request) :
  handler_run (new_handler cached) events = Some s → requests s !! i = Some r →
  match at_stage r with
  | Returned =>
      ((∃ d, ctx r = token_ctx d) ∧ count (error_by i) (effects s) = 0) ∨
      (ctx r = error_ctx ∧ count (error_by i) (effects s) = 1 ∧
       count (fetch_by i) (effects s) = 1)
  | _ => ctx r = fresh_ctx
  end.
Proof.
  intros Hrun Hi. pose proof (reachable_accounted _ _ _ _ _ Hrun Hi) as Hok.
  unfold request_ok in Hok.
  destruct (at_stage r); try (destruct Hok as (_ & Hctx); exact Hctx).
  destruct Hok as [(Ht & _ & Hd)|[(Ht & _ & Hd)|[(Ht & Hd)|(Ht & Hctx)]]];
    apply tally_eq in Ht as (Ha & Hr & Hfe & He); auto.
Qed.

(** A failed refresh, answered with status 500. *)
Lemma response_shape_witness :
  ∃ s r,
    handler_run (new_handler None)
      [Call 0 false 0; AcquireResumes 0 0;
       FetchSettles 0 (Reject "Invalid response from Spotify.")] = Some s ∧
    requests s !! 0 = Some r ∧ ctx r = error_ctx ∧
    match at_stage r with
    | Returned =>
        ((∃ d, ctx r = token_ctx d) ∧ count (error_by 0) (effects s) = 0) ∨
        (ctx r = error_ctx ∧ count (error_by 0) (effects s) = 1 ∧
         count (fetch_by 0) (effects s) = 1)
    | _ => ctx r = fresh_ctx
    end.
Proof.
  do 2 eexists. split; [vm_compute; reflexivity|]. split; [vm_compute; reflexivity|].
  split; [reflexivity|].
  apply (response_shape None
           [Call 0 false 0; AcquireResumes 0 0;
            FetchSettles 0 (Reject "Invalid response from Spotify.")] _ 0).
  - vm_compute. reflexivity.
  - vm_compute. reflexivity.
Defined.

(** ** The lock and the cache over whole runs *)

(** X5: when every request has returned, the lock is free and nobody is
    queued: the semaphore is as the constructor left it, whether the
    requests were served, refreshed or failed. *)
Theorem lock_free_at_rest (cached : option SpotifyToken)
    (events : list handler_event) (s : handler) :
  handler_run (new_handler cached) events = Some s →
  (∀ i r, requests s !! i = Some r → at_stage r = Returned) →
  semaphore s = new_Semaphore.
Proof.
  intros Hrun Hall.
  destruct (handler_run_lock_inv events (new_handler cached) s lock_inv_new Hrun) as [Hl _ Hq _ _].
  destruct (semaphore s) as [locked waiters]. simpl in *. unfold new_Semaphore. f_equal.
  - apply not_true_is_false. intros Ht. apply Hl in Ht as (i & r & Hi & Hh).
    rewrite (Hall _ _ Hi) in Hh. discriminate.
  - destruct waiters as [|w ws]; [reflexivity|].
    assert (Hw : w ∈ w :: ws) by left.
    apply Hq in Hw as (r & Hi & Hst). rewrite (Hall _ _ Hi) in Hst. discriminate.
Qed.

(** Three calls, the first of which fails and the second refreshes. *)
Lemma lock_free_at_rest_witness :
  ∃ s,
    handler_run (new_handler None)
      [Call 0 false 0; Call 1 false 0; Call 2 true 0; AcquireResumes 0 0;
       FetchSettles 0 (Reject "Failed to launch browser"); AcquireResumes 1 0;
       FetchSettles 1 (Resolve sample_token); RefreshResumes 1;
       AcquireResumes 2 0; FetchSettles 2 (Resolve sample_token);
       RefreshResumes 2] = Some s ∧
    fetches s = 3 ∧
    semaphore s = new_Semaphore.
Proof.
  eexists. split; [vm_compute; reflexivity|]. split; [vm_compute; reflexivity|].
  apply (lock_free_at_rest None
           [Call 0 false 0; Call 1 false 0; Call 2 true 0; AcquireResumes 0 0;
            FetchSettles 0 (Reject "Failed to launch browser"); AcquireResumes 1 0;
            FetchSettles 1 (Resolve sample_token); RefreshResumes 1;
            AcquireResumes 2 0; FetchSettles 2 (Resolve sample_token);
            RefreshResumes 2]).
  - vm_compute. reflexivity.
  - apply (map_Forall_to_list (fun _ r => at_stage r = Returned)).
    vm_compute. repeat constructor.
Defined.

(** X6: while the fetch of one request is in flight the lock is held,
    and every other request is queued behind it or has returned: no
    second fetch is in flight and nobody else is past [acquire()]. *)
Theorem one_fetch_in_flight (cached : option SpotifyToken)
    (events : list handler_event) (s : handler) (i : nat) (r : request) :
  handler_run (new_handler cached) events = Some s →
  requests s !! i = Some r → at_stage r = Refreshing →
  _locked (semaphore s) = true ∧
  ∀ j rj, requests s !! j = Some rj → j ≠ i →
    (at_stage rj = Queued ∧ j ∈ _waiters (semaphore s)) ∨ at_stage rj = Returned.
Proof.
  intros Hrun Hi Hst.
  destruct (handler_run_lock_inv events (new_handler cached) s lock_inv_new Hrun) as [Hl Hs Hq _ _].
  split.
  - apply Hl. exists i, r. split; [exact Hi|]. rewrite Hst. reflexivity.
  - intros j rj Hj Hne.
    destruct (holds (at_stage rj)) eqn:Hh.
    + contradiction Hne. eapply Hs; eauto. rewrite Hst. reflexivity.
    + destruct (at_stage rj) eqn:Hstj; try discriminate; [left|right; reflexivity].
      split; [reflexivity|]. apply Hq. eauto.
Qed.

(** A fetch in flight with one request queued and one served before. *)
Lemma one_fetch_in_flight_witness :
  ∃ s r,
    handler_run (new_handler None)
      [Call 0 false 0; Call 1 true 0; AcquireResumes 0 0] = Some s ∧
    requests s !! 0 = Some r ∧
    (_locked (semaphore s) = true ∧
     ∀ j rj, requests s !! j = Some rj → j ≠ 0 →
       (at_stage rj = Queued ∧ j ∈ _waiters (semaphore s)) ∨ at_stage rj = Returned).
Proof.
  do 2 eexists. split; [vm_compute; reflexivity|]. split; [vm_compute; reflexivity|].
  eapply (one_fetch_in_flight None [Call 0 false 0; Call 1 true 0; AcquireResumes 0 0]).
  - vm_compute. reflexivity.
  - vm_compute. reflexivity.
  - reflexivity.
Defined.

Lemma handler_step_cache (s s' : handler) (e : handler_event) :
  handler_step s e = Some s' →
  cachedAccessToken s' =
    match e with
    | FetchSettles _ (Resolve data) => Some data
    | _ => cachedAccessToken s
    end.
Proof.
  intros Hstep. apply handler_step_inv in Hstep.
  destruct e as [i force now|i now|i result|i].
  - destruct Hstep as (_ & ->). unfold call.
    destruct (negb force && _); [reflexivity|].
    destruct (acquire i (semaphore s)). reflexivity.
  - destruct Hstep as (r & _ & _ & ->). unfold acquire_resumes.
    destruct (negb (isForce r) && _); [rewrite cached_release|]; reflexivity.
  - destruct Hstep as (r & _ & _ & ->). unfold fetch_settles.
    destruct result; [|rewrite cached_release]; reflexivity.
  - destruct Hstep as (r & data & _ & _ & ->). unfold refresh_resumes.
    rewrite cached_release. reflexivity.
Qed.

(** X7: after any run the cache slot holds the token of the last fetch
    that resolved, or what it held at the start when none did: only a
    resolved fetch writes the slot, and a rejected one, a served call or
    a release never clears or changes it. *)
Theorem cache_is_last_resolved (events : list handler_event) (s s' : handler) :
  handler_run s events = Some s' →
  cachedAccessToken s' = last_resolved (cachedAccessToken s) events.
Proof.
  revert s. induction events as [|e events IH]; intros s; simpl.
  - intros [= <-]. reflexivity.
  - destruct (handler_step s e) as [s1|] eqn:He; [|discriminate].
    intros Hrun. rewrite (IH _ Hrun). f_equal.
    apply handler_step_cache in He. rewrite He.
    destruct e as [| |? []|]; reflexivity.
Qed.

(** A refresh that resolves, followed by one that is rejected. *)
Lemma cache_is_last_resolved_witness :
  ∃ s',
    handler_run (new_handler (Some expired_token))
      [Call 0 true 5000; AcquireResumes 0 5000; FetchSettles 0 (Resolve sample_token);
       RefreshResumes 0; Call 1 true 6000; AcquireResumes 1 6000;
       FetchSettles 1 (Reject "Token fetch exceeded deadline")] = Some s' ∧
    cachedAccessToken s' = Some sample_token.
Proof.
  eexists. split; [vm_compute; reflexivity|].
  apply (cache_is_last_resolved
           [Call 0 true 5000; AcquireResumes 0 5000; FetchSettles 0 (Resolve sample_token);
            RefreshResumes 0; Call 1 true 6000; AcquireResumes 1 6000;
            FetchSettles 1 (Reject "Token fetch exceeded deadline")]
           (new_handler (Some expired_token))).
  vm_compute. reflexivity.
Defined.

Lemma release_lookup_self (i : nat) (r' : request) (s : handler) :
  at_stage r' = Returned →
  requests (release i (put i r' s)) !! i = Some r'.
Proof.
  intros Hst.
  destruct (release_lookup i i (put i r' s)) as [H|H]; rewrite H; simpl;
    rewrite lookup_insert_eq; [reflexivity|].
  simpl. unfold grant. rewrite Hst. reflexivity.
Qed.

(** X8: a call that returns at one of the two validity checks, without
    fetching, was not forced and returns the token in the cache slot,
    which had more than 10000 ms left on the clock read by that check. *)
Theorem served_from_cache_is_valid (s s' : handler) (e : handler_event)
    (i : nat) (now : Z) (r' : request) :
  (∃ force, e = Call i force now) ∨ e = AcquireResumes i now →
  handler_step s e = Some s' →
  requests s' !! i = Some r' → at_stage r' = Returned →
  ∃ d, cachedAccessToken s = Some d ∧ ctx_body (ctx r') = BodyToken d ∧
       isForce r' = false ∧
       (now < accessTokenExpirationTimestampMs d - 10000)%Z ∧
       fetches s' = fetches s ∧ cachedAccessToken s' = Some d.
Proof.
  intros He Hstep Hi' Hst'. apply handler_step_inv in Hstep.
  destruct He as [[force ->] | ->].
  - destruct Hstep as (Hi & ->). revert Hi'. unfold call.
    destruct (negb force && valid (cachedAccessToken s) now) eqn:Hfast.
    + apply andb_true_iff in Hfast as [Hforce Hvalid].
      apply negb_true_iff in Hforce as ->.
      apply valid_some in Hvalid as (d & Hd & Hv). apply valid_spec in Hv.
      simpl. rewrite lookup_insert_eq. intros [= <-]. exists d.
      rewrite Hd. repeat split; assumption.
    + destruct (acquire i (semaphore s)) as [sm how]. simpl.
      rewrite lookup_insert_eq. intros [= <-]. destruct how; discriminate.
  - destruct Hstep as (r & Hi & Hst & ->). revert Hi'. unfold acquire_resumes.
    destruct (negb (isForce r) && valid (cachedAccessToken s) now) eqn:Hhit.
    + apply andb_true_iff in Hhit as [Hforce Hvalid].
      apply negb_true_iff in Hforce.
      apply valid_some in Hvalid as (d & Hd & Hv). apply valid_spec in Hv.
      rewrite release_lookup_self by reflexivity. intros [= <-]. exists d.
      rewrite fetches_release, cached_release, Hd. simpl.
      repeat split; assumption.
    + simpl. rewrite lookup_insert_eq. intros [= <-]. discriminate.
Qed.

(** A queued request that finds the refreshed token at the double check. *)
Lemma served_from_cache_is_valid_witness :
  ∃ s s' r',
    handler_run (new_handler None)
      [Call 0 false 0; Call 1 false 0; AcquireResumes 0 0;
       FetchSettles 0 (Resolve sample_token); RefreshResumes 0] = Some s ∧
    handler_step s (AcquireResumes 1 5) = Some s' ∧
    requests s' !! 1 = Some r' ∧
    ∃ d, cachedAccessToken s = Some d ∧ ctx_body (ctx r') = BodyToken d ∧
         isForce r' = false ∧
         (5 < accessTokenExpirationTimestampMs d - 10000)%Z ∧
         fetches s' = fetches s ∧ cachedAccessToken s' = Some d.
Proof.
  do 3 eexists. split; [vm_compute; reflexivity|]. split; [vm_compute; reflexivity|].
  split; [vm_compute; reflexivity|].
  eapply (served_from_cache_is_valid _ _ (AcquireResumes 1 5) 1 5).
  - right. reflexivity.
  - vm_compute. reflexivity.
  - vm_compute. reflexivity.
  - reflexivity.
Defined.

(** X9: a request that holds the lock and is forced, or finds the cached
    token not valid, goes through fetch, store and return: when its
    fetch resolves with [data], [data] is what the cache slot holds and
    what the request answers, one more fetch has been made, and the
    expiry of [data] is not looked at. *)
Theorem refresh_stores_and_returns (s : handler) (i : nat) (r : request)
    (now : Z) (data : SpotifyToken) :
  requests s !! i = Some r → at_stage r = Granted →
  isForce r = true ∨ valid (cachedAccessToken s) now = false →
  ∃ s' r',
    handler_run s [AcquireResumes i now; FetchSettles i (Resolve data);
                   RefreshResumes i] = Some s' ∧
    cachedAccessToken s' = Some data ∧
    requests s' !! i = Some r' ∧ at_stage r' = Returned ∧
    ctx_body (ctx r') = BodyToken data ∧ ctx_status (ctx r') = ctx_status (ctx r) ∧
    fetches s' = S (fetches s).
Proof.
  intros Hi Hst Hwhy.
  assert (Hmiss : negb (isForce r) && valid (cachedAccessToken s) now = false).
  { destruct Hwhy as [-> | ->]; [reflexivity | apply andb_false_r]. }
  cbn [handler_run handler_step]. rewrite Hi, Hst.
  unfold acquire_resumes. rewrite Hmiss.
  cbn [handler_step emit put requests]. rewrite lookup_insert_eq.
  cbn [at_ at_stage fetch_settles store put requests handler_step].
  rewrite lookup_insert_eq. cbn [at_ at_stage].
  do 2 eexists. split; [reflexivity|]. unfold refresh_resumes.
  rewrite cached_release, fetches_release, release_lookup_self by reflexivity.
  repeat split.
Qed.

(** A forced call on a valid cache. *)
Lemma refresh_stores_and_returns_witness :
  ∃ s r,
    handler_run (new_handler (Some sample_token)) [Call 0 true 1699999000000] = Some s ∧
    requests s !! 0 = Some r ∧
    ∃ s' r',
    handler_run s [AcquireResumes 0 1699999000000; FetchSettles 0 (Resolve expired_token);
                   RefreshResumes 0] = Some s' ∧
    cachedAccessToken s' = Some expired_token ∧
    requests s' !! 0 = Some r' ∧ at_stage r' = Returned ∧
    ctx_body (ctx r') = BodyToken expired_token ∧
    ctx_status (ctx r') = ctx_status (ctx r) ∧
    fetches s' = S (fetches s).
Proof.
  do 2 eexists. split; [vm_compute; reflexivity|]. split; [vm_compute; reflexivity|].
  apply (refresh_stores_and_returns _ 0 _ 1699999000000 expired_token).
  - vm_compute. reflexivity.
  - reflexivity.
  - left. reflexivity.
Defined.

(** ** The semaphore alone, continued *)

Lemma releases_drain (waiters : list nat) :
  ∀ locked arrivals resumptions,
    foldl sem_step
      {| sem := {| _locked := locked; _waiters := waiters |};
         arrived := arrivals; resumed := resumptions |}
      (replicate (S (length waiters)) OpRelease) =
    {| sem := new_Semaphore; arrived := arrivals; resumed := resumptions ++ waiters |}.
Proof.
  induction waiters as [|w ws IH]; intros locked arrivals resumptions.
  - simpl. rewrite app_nil_r. reflexivity.
  - change (replicate (S (length (w :: ws))) OpRelease)
      with (OpRelease :: replicate (S (length ws)) OpRelease).
    cbn [foldl]. unfold sem_step at 2. unfold _release. cbn [sem _waiters _locked arrived resumed].
    rewrite IH, <- app_assoc. reflexivity.
Qed.

(** X10: after any sequence of operations, releasing once more than
    there are waiters resumes every caller that was ever suspended, in
    arrival order, and leaves the semaphore as the constructor made it. *)
Theorem semaphore_drains (ops : list sem_op) :
  let h := sem_run ops in
  let h' := sem_run (ops ++ replicate (S (length (_waiters (sem h)))) OpRelease) in
  sem h' = new_Semaphore ∧ resumed h' = arrived h ∧ arrived h' = arrived h.
Proof.
  cbv zeta.
  assert (Happ : ∀ more, sem_run (ops ++ more) = foldl sem_step (sem_run ops) more)
    by (intros more; unfold sem_run; apply foldl_app).
  rewrite Happ. destruct (sem_run_queue ops) as [Hq _].
  destruct (sem_run ops) as [[locked waiters] arrivals resumptions].
  cbn [sem _waiters arrived resumed] in Hq |- *.
  rewrite releases_drain. simpl. auto.
Qed.

(** ** One fetch attempt, continued *)

Lemma expected_settle_step (a a' : attempt) (e : browser_event) :
  Forall expected_settle (settles a) → fetch_step a e = Some a' →
  Forall expected_settle (settles a').
Proof.
  intros Ha.
  assert (Hknown : ∀ m,
    m ∈ ["Failed to launch browser"; "Failed to open new page";
         "Token fetch exceeded deadline"; "Invalid response from Spotify."] →
    Forall expected_settle (settles a ++ [Reject m])).
  { intros m Hm. apply Forall_app. split; [exact Ha|].
    constructor; [left; exact Hm | constructor]. }
  destruct e as [|url|[[|]|]|[json|]|[err|]]; simpl; enabled;
    first [ exact Ha
          | apply Hknown; apply (bool_decide_unpack _); vm_compute; exact I
          | apply Forall_app; split; [exact Ha|]; constructor; [|constructor];
            first [ reflexivity | right; eexists; reflexivity ] ].
Qed.

Lemma expected_settle_start (browser page : bool) :
  Forall expected_settle (settles (getAccessToken browser page)).
Proof.
  destruct browser, page; simpl; repeat constructor;
    left; apply (bool_decide_unpack _); vm_compute; exact I.
Qed.

(** X11: whatever happens to an attempt, every call of [resolve] hands
    out a token without [_notes], and every call of [reject] carries one
    of five errors: failed launch, failed page, deadline, invalid
    response, or failed navigation with its cause.  So does the promise. *)
Theorem attempt_reports (browser page : bool) (events : list browser_event) (a : attempt) :
  fetch_run (getAccessToken browser page) events = Some a →
  Forall expected_settle (settles a) ∧
  ∀ c, promise a = Some c → expected_settle c.
Proof.
  intros Hrun.
  assert (Hall : Forall expected_settle (settles a)).
  { revert Hrun. generalize (expected_settle_start browser page).
    generalize (getAccessToken browser page). clear.
    induction events as [|e events IH]; intros a0 H0; simpl.
    - intros [= <-]. exact H0.
    - destruct (fetch_step a0 e) as [a1|] eqn:He; [|discriminate].
      apply IH. eapply expected_settle_step; eassumption. }
  split; [exact Hall|]. intros c Hc. unfold promise in Hc.
  destruct (settles a) as [|c0 l]; [discriminate|]. injection Hc as <-.
  apply Forall_cons in Hall as [Hc _]. exact Hc.
Qed.

(** A token with [_notes] parsed from the response. *)
Lemma attempt_reports_witness :
  ∃ a,
    fetch_run (getAccessToken true true)
      [RequestFinished token_url; GotoSettled None; ResponseSettled (Some true);
       JsonSettled (Some sample_token)] = Some a ∧
    promise a = Some (Resolve (delete_notes sample_token)) ∧
    (Forall expected_settle (settles a) ∧
     ∀ c, promise a = Some c → expected_settle c).
Proof.
  eexists. split; [vm_compute; reflexivity|]. split; [reflexivity|].
  apply (attempt_reports true true
           [RequestFinished token_url; GotoSettled None; ResponseSettled (Some true);
            JsonSettled (Some sample_token)]).
  vm_compute. reflexivity.
Defined.

Lemma append_String (c : ascii) (s t : string) :
  String.append (String c s) t = String c (String.append s t).
Proof. reflexivity. Qed.

Lemma prefix_spec (sub s : string) :
  String.prefix sub s = true ↔ ∃ post, s = String.append sub post.
Proof.
  revert s. induction sub as [|c sub IH]; intros s.
  - split; [intros _; exists s; reflexivity | destruct s; reflexivity].
  - destruct s as [|d s]; simpl; [split; [discriminate | intros (? & [=])]|].
    destruct (Ascii.ascii_dec c d) as [->|Hne].
    + rewrite IH. split; intros (post & H); exists post;
        rewrite append_String in *; congruence.
    + split; [discriminate | intros (? & H); rewrite append_String in H; congruence].
Qed.

(** [includes] finds [sub] wherever it stands in [s]. *)
Lemma includes_spec (s sub : string) :
  includes s sub = true ↔
  ∃ pre post, s = String.append pre (String.append sub post).
Proof.
  induction s as [|c s IH]; cbn [includes].
  - rewrite orb_false_r, prefix_spec. split.
    + intros (post & H). exists EmptyString, post. exact H.
    + intros ([|? pre] & post & H); [eauto | discriminate].
  - rewrite orb_true_iff, prefix_spec, IH. split.
    + intros [(post & H)|(pre & post & H)].
      * exists EmptyString, post. exact H.
      * exists (String c pre), post. rewrite append_String. congruence.
    + intros ([|d pre] & post & H); [left; eauto|].
      right. rewrite append_String in H. injection H as <- H. eauto.
Qed.

(** X12: the listener takes up a finished request exactly when its URL
    contains "/api/token" somewhere, at the end or not: it then marks the
    token request as processed and waits for the response, touching
    neither the browser nor the promise; any other request changes
    nothing. *)
Theorem token_request_matching (a : attempt) (url : string) :
  listening a = true →
  ∃ a', fetch_step a (RequestFinished url) = Some a' ∧
    closes a' = closes a ∧ settles a' = settles a ∧
    ((∃ pre post, url = String.append pre (String.append "/api/token" post)) →
       processedAccessTokenRequest a' = true ∧
       awaiting_response a' = S (awaiting_response a)) ∧
    ((¬ ∃ pre post, url = String.append pre (String.append "/api/token" post)) →
       a' = a).
Proof.
  intros Hl. simpl. rewrite Hl. eexists. split; [reflexivity|].
  unfold on_requestfinished.
  destruct (includes url "/api/token") eqn:Hinc; simpl.
  - split; [reflexivity|]. split; [reflexivity|]. split.
    + intros _. split; reflexivity.
    + intros Hno. contradiction Hno. apply includes_spec. exact Hinc.
  - split; [reflexivity|]. split; [reflexivity|]. split.
    + intros Hyes. apply includes_spec in Hyes. congruence.
    + intros _. reflexivity.
Qed.

(** A request to a longer path that contains the token path. *)
Lemma token_request_matching_witness :
  ∃ a', fetch_step (getAccessToken true true)
          (RequestFinished "https://open.spotify.com/api/tokens?x=1") = Some a' ∧
    closes a' = closes (getAccessToken true true) ∧
    settles a' = settles (getAccessToken true true) ∧
    ((∃ pre post, "https://open.spotify.com/api/tokens?x=1" =
                  String.append pre (String.append "/api/token" post)) →
       processedAccessTokenRequest a' = true ∧
       awaiting_response a' = S (awaiting_response (getAccessToken true true))) ∧
    ((¬ ∃ pre post, "https://open.spotify.com/api/tokens?x=1" =
                    String.append pre (String.append "/api/token" post)) →
       a' = getAccessToken true true).
Proof.
  apply (token_request_matching (getAccessToken true true)
           "https://open.spotify.com/api/tokens?x=1").
  reflexivity.
Defined.

Lemma processed_stays (events : list browser_event) (a a' : attempt) :
  fetch_run a events = Some a' →
  processedAccessTokenRequest a = true → processedAccessTokenRequest a' = true.
Proof.
  revert a. induction events as [|e events IH]; intros a; simpl.
  - intros [= <-]. auto.
  - destruct (fetch_step a e) as [a1|] eqn:He; [|discriminate].
    intros Hrun Hp. apply (IH _ Hrun). revert He. clear -Hp.
    destruct e as [|url|[[|]|]|[json|]|[err|]]; simpl; enabled; auto.
Qed.

(** X13: a failed navigation settles the attempt only while no token
    request has been observed: it then closes the browser and rejects
    with the cause.  Once a token request has been observed, at any
    later point a failed navigation closes nothing and calls neither
    [resolve] nor [reject]. *)
Theorem navigation_failure (a : attempt) (err : string) :
  navigating a = true →
  ∃ a', fetch_step a (GotoSettled (Some err)) = Some a' ∧
    (processedAccessTokenRequest a = false →
       closes a' = S (closes a) ∧
       settles a' = settles a ++ [Reject (String.append "Failed to goto URL: " err)] ∧
       (promise a = None →
        promise a' = Some (Reject (String.append "Failed to goto URL: " err)))) ∧
    (∀ a0 events, fetch_run a0 events = Some a →
       processedAccessTokenRequest a0 = true →
       closes a' = closes a ∧ settles a' = settles a).
Proof.
  intros Hn. simpl. rewrite Hn. eexists. split; [reflexivity|].
  unfold on_goto. split.
  - intros ->. simpl. split; [reflexivity|]. split; [reflexivity|].
    unfold promise. simpl. destruct (settles a); [reflexivity | discriminate].
  - intros a0 events Hrun Hp0.
    rewrite (processed_stays _ _ _ Hrun Hp0). simpl. auto.
Qed.

(** Navigation fails first; and navigation fails after the token request. *)
Lemma navigation_failure_witness :
  (∃ a', fetch_step (getAccessToken true true) (GotoSettled (Some "net::ERR")) = Some a' ∧
     (processedAccessTokenRequest (getAccessToken true true) = false →
        closes a' = S (closes (getAccessToken true true)) ∧
        settles a' = settles (getAccessToken true true) ++
                     [Reject (String.append "Failed to goto URL: " "net::ERR")] ∧
        (promise (getAccessToken true true) = None →
         promise a' = Some (Reject (String.append "Failed to goto URL: " "net::ERR")))) ∧
     (∀ a0 events, fetch_run a0 events = Some (getAccessToken true true) →
        processedAccessTokenRequest a0 = true →
        closes a' = closes (getAccessToken true true) ∧
        settles a' = settles (getAccessToken true true))) ∧
  promise (on_goto (Some "net::ERR") (set_navigating false (getAccessToken true true)))
    = Some (Reject "Failed to goto URL: net::ERR").
Proof.
  split; [|vm_compute; reflexivity].
  apply (navigation_failure (getAccessToken true true) "net::ERR").
  reflexivity.
Defined.

Lemma token_requests_pile_up (k : nat) :
  ∀ a, listening a = true →
    ∃ a', fetch_run a (replicate k (RequestFinished token_url)) = Some a' ∧
      listening a' = true ∧ awaiting_response a' = awaiting_response a + k ∧
      awaiting_json a' = awaiting_json a ∧
      closes a' = closes a ∧ settles a' = settles a.
Proof.
  induction k as [|k IH]; intros a Hl.
  - exists a. simpl. repeat split; try assumption; lia.
  - cbn [replicate fetch_run fetch_step]. rewrite Hl.
    destruct (IH (on_requestfinished token_url a)) as (a' & Hrun & Hl' & Hr & Hj & Hc & Hs).
    + exact Hl.
    + exists a'. split; [exact Hrun|].
      unfold on_requestfinished in Hr, Hj, Hc, Hs.
      replace (includes token_url "/api/token") with true in * by (vm_compute; reflexivity).
      simpl in *. repeat split; try assumption; lia.
Qed.

Lemma responses_each_close (k : nat) :
  ∀ a, k ≤ awaiting_response a →
    ∃ a', fetch_run a (replicate k (ResponseSettled None)) = Some a' ∧
      awaiting_response a' = awaiting_response a - k ∧
      closes a' = closes a + k ∧
      settles a' = settles a ++ replicate k (Reject "Invalid response from Spotify.").
Proof.
  induction k as [|k IH]; intros a Hk.
  - exists a. simpl. rewrite app_nil_r. repeat split; lia.
  - cbn [replicate fetch_run fetch_step].
    destruct (awaiting_response a) as [|n] eqn:Hn; [lia|].
    match goal with |- context [fetch_run ?a1 _] =>
      destruct (IH a1) as (a' & Hrun & Hr & Hc & Hs) end.
    + simpl. lia.
    + exists a'. split; [exact Hrun|]. simpl in Hr, Hc, Hs.
      rewrite Hr, Hc, Hs, <- app_assoc. repeat split; simpl; lia.
Qed.

(** X14: the listener handles every token request it is called for: when
    [k] of them finish before the first response is looked at, the
    browser is closed [k] times and [reject] is called [k] times; neither
    the processed flag nor the removal of the listeners stops the runs
    already waiting. *)
Theorem each_token_request_closes (k : nat) :
  ∃ a,
    fetch_run (getAccessToken true true)
      (replicate k (RequestFinished token_url) ++ replicate k (ResponseSettled None)) = Some a ∧
    closes a = k ∧
    settles a = replicate k (Reject "Invalid response from Spotify.") ∧
    awaiting_response a = 0.
Proof.
  destruct (token_requests_pile_up k (getAccessToken true true) eq_refl)
    as (a1 & Hrun1 & _ & Hr1 & _ & Hc1 & Hs1).
  destruct (responses_each_close k a1) as (a2 & Hrun2 & Hr2 & Hc2 & Hs2).
  - rewrite Hr1. simpl. lia.
  - exists a2. split.
    + clear -Hrun1 Hrun2. revert Hrun1. generalize (getAccessToken true true).
      induction (replicate k (RequestFinished token_url)) as [|e l IH]; intros a0; simpl.
      * intros [= ->]. exact Hrun2.
      * destruct (fetch_step a0 e); [apply IH | discriminate].
    + rewrite Hc2, Hs2, Hr2, Hc1, Hs1, Hr1. simpl. repeat split; lia.
Qed.

(** ** The route's entry point *)


